(** * rsync-system-backup: the command line interface (src/cli.py)

    A shallow embedding of [main] and [enable_explicit_action].

    - Python [str] values are Rocq [string]s; a character is one of the code
      points 0..255.
    - Python dicts ([program_opts], [dest_opts], [tunnel_opts], keyword
      arguments) are [gmap string value].
    - What [main] does to the outside (logging, usage text, objects built,
      the engine started) is recorded in a chronological list of [event]s.
    - What the outside gives to [main] (the result of [getopt.gnu_getopt],
      the environment, the terminal, the execution engine) is a [world]. *)

From Stdlib Require Import ZArith String Ascii List Bool Lia DecimalString.
From Stdlib Require Import DecimalNat.
From stdpp Require Import gmap strings list fin_maps.

Set Warnings "-register-all".
Open Scope string_scope.
Open Scope list_scope.

(** ** Python string primitives *)

Module PyStr.

(** [str.isspace] on one character: the white space of Unicode among the
    code points 0..255. *)
Definition isspace (c : ascii) : bool :=
  let n := nat_of_ascii c in
  (((9 <=? n) && (n <=? 13)) || ((28 <=? n) && (n <=? 32))
   || (n =? 133) || (n =? 160))%nat.

Definition isdigit (c : ascii) : bool :=
  let n := nat_of_ascii c in ((48 <=? n) && (n <=? 57))%nat.

(** [str.lower] on one character: A..Z and the upper case letters of
    Latin-1 (0xC0..0xDE without the multiplication sign 0xD7). *)
Definition lower_char (c : ascii) : ascii :=
  let n := nat_of_ascii c in
  if (((65 <=? n) && (n <=? 90))
      || ((192 <=? n) && (n <=? 222) && negb (n =? 215)))%nat
  then ascii_of_nat (n + 32) else c.

Fixpoint lower (s : string) : string :=
  match s with
  | EmptyString => EmptyString
  | String c s' => String (lower_char c) (lower s')
  end.

(** Dropping the characters of a class from both ends. *)
Section Strip.

Variable space : ascii -> bool.

Fixpoint lstrip_by (s : string) : string :=
  match s with
  | EmptyString => EmptyString
  | String c s' => if space c then lstrip_by s' else s
  end.

Fixpoint rstrip_by (s : string) : string :=
  match s with
  | EmptyString => EmptyString
  | String c s' =>
      match rstrip_by s' with
      | EmptyString => if space c then EmptyString else String c EmptyString
      | r => String c r
      end
  end.

Definition strip_by (s : string) : string := rstrip_by (lstrip_by s).

End Strip.

(** [s.strip()] *)
Definition strip (s : string) : string := strip_by isspace s.

(** [sep in s] for a separator of one character. *)
Fixpoint contains (sep : ascii) (s : string) : bool :=
  match s with
  | EmptyString => false
  | String c s' => Ascii.eqb c sep || contains sep s'
  end.

(** [s.partition(sep)]: split at the first [sep]; [(s, "", "")] when
    there is none. *)
Fixpoint partition (sep : ascii) (s : string) : string * string * string :=
  match s with
  | EmptyString => (EmptyString, EmptyString, EmptyString)
  | String c s' =>
      if Ascii.eqb c sep then (EmptyString, String sep EmptyString, s')
      else let '(h, m, t) := partition sep s' in (String c h, m, t)
  end.

(** [s.rpartition(sep)]: split at the last [sep]; [("", "", s)] when
    there is none. *)
Fixpoint rpartition (sep : ascii) (s : string) : string * string * string :=
  match s with
  | EmptyString => (EmptyString, EmptyString, EmptyString)
  | String c s' =>
      if contains sep s' then
        let '(h, m, t) := rpartition sep s' in (String c h, m, t)
      else if Ascii.eqb c sep then (EmptyString, String sep EmptyString, s')
      else (EmptyString, EmptyString, s)
  end.

(** Truth value of a string: [if s:]. *)
Definition truthy (s : string) : bool :=
  match s with EmptyString => false | _ => true end.

(** ** [int(s)] in base 10, as CPython 3 reads a [str]

    White space around the literal is dropped, one sign may lead, and the
    digits may be grouped by single underscores (never leading, trailing
    or doubled), and may be [max_str_digits] in number at most.  [None]
    stands for [ValueError]. *)

(** The white space [int] drops: the C white space, and the two spaces of
    Unicode above 127, which are turned into [" "] first.  The separators
    0x1C..0x1F, white space for [str.strip], are none for [int]. *)
Definition isspace_int (c : ascii) : bool :=
  let n := nat_of_ascii c in
  (((9 <=? n) && (n <=? 13)) || (n =? 32) || (n =? 133) || (n =? 160))%nat.

Definition digit_val (c : ascii) : Z := Z.of_nat (nat_of_ascii c) - 48.

(** [digits acc after_digit s]: [after_digit] tells whether the previous
    character was a digit, the only place where an underscore or the end
    of the literal may come. *)
Fixpoint digits (acc : Z) (after_digit : bool) (s : string) : option Z :=
  match s with
  | EmptyString => if after_digit then Some acc else None
  | String c s' =>
      if isdigit c then digits (10 * acc + digit_val c) true s'
      else if Ascii.eqb c "_" then
        if after_digit then digits acc false s' else None
      else None
  end.

(** [sys.int_info.default_max_str_digits]: the most digits a literal may
    have (CPython 3.11 and later). *)
Definition max_str_digits : nat := 4300.

(** The digits of a literal; underscores do not count. *)
Fixpoint count_digits (s : string) : nat :=
  match s with
  | EmptyString => 0
  | String c s' => ((if isdigit c then 1 else 0) + count_digits s')%nat
  end.

(** The literal after white space and sign. *)
Definition literal (s : string) : option Z :=
  if (max_str_digits <? count_digits s)%nat then None
  else digits 0 false s.

Definition int (s : string) : option Z :=
  match strip_by isspace_int s with
  | String "+" s' => literal s'
  | String "-" s' => Z.opp <$> literal s'
  | s' => literal s'
  end.

(** ["%i" % n] for a length. *)
Definition format_i (n : nat) : string :=
  NilZero.string_of_uint (Nat.to_uint n).

End PyStr.

(** ** Values, exceptions, events *)

(** Modelled from the spec: [Destination], of
    [rsync_system_backup.destinations], is not part of the sources at hand;
    it keeps the expression and the tunnel as they are given and leaves
    resolving them to later (section 4.2 of the specification).
    [SecureTunnel] comes from the [executor] package.  Both are built by
    keyword arguments, and an object is known by them. *)
Inductive class := SecureTunnel | Destination.

(** A Python value as far as [main] handles one.  An object is the class
    and the keyword arguments it was built from; [VContext] is what
    [create_context] returns. *)
Inductive value :=
| VBool (b : bool)
| VInt (n : Z)
| VStr (s : string)
| VList (l : list string)
| VObject (cls : class) (kwargs : gmap string value)
| VContext (kwargs : gmap string value).

(** Modelled from the spec: the exception classes of
    [rsync_system_backup.exceptions], which is not part of the sources at
    hand.  A missing backup disk is one of the domain errors (section 7 of
    the specification); [OtherDomainError] is any further subclass of
    [RsyncSystemBackupError], [OtherException] any further subclass of
    [Exception]. *)
Inductive exn_class :=
| Exception_
| ValueError
| TypeError
| AttributeError
| GetoptError
| RsyncSystemBackupError
| MissingBackupDiskError
| OtherDomainError (name : string)
| OtherException (name : string).

(** [str(e)].  Two texts are made inside the Python library and are not
    expanded: [InvalidLiteral] is the text of the [ValueError] that [int]
    raises for the literal, [UsageOfNone] the text of the [TypeError] that
    [usage] raises for a usage text that is [None]. *)
Inductive message :=
| Text (s : string)
| InvalidLiteral (literal : string)
| UsageOfNone.

Record exn := Exn { exn_class_of : exn_class; exn_message : message }.

(** [isinstance(e, RsyncSystemBackupError)] *)
Definition is_RsyncSystemBackupError (e : exn) : bool :=
  match exn_class_of e with
  | RsyncSystemBackupError | MissingBackupDiskError | OtherDomainError _ => true
  | _ => false
  end.

(** [isinstance(e, MissingBackupDiskError)] *)
Definition is_MissingBackupDiskError (e : exn) : bool :=
  match exn_class_of e with
  | MissingBackupDiskError => true
  | _ => false
  end.

Inductive level := INFO | ERROR.

Inductive log_arg := NoArg | StrArg (s : string) | ExnArg (e : exn).

Inductive event :=
| InstallLogging                                   (* coloredlogs.install(syslog=True) *)
| Log (lvl : level) (fmt : string) (arg : log_arg) (exc_info : option exn)
| Warning (fmt : string) (e : exn)                 (* warning("Error: %s", e) *)
| Usage                                            (* usage(__doc__), run to its end *)
| IncreaseVerbosity
| DecreaseVerbosity
| Construct (cls : class) (kwargs : gmap string value)
| Execute (program_opts : gmap string value).      (* RsyncSystemBackup, built from program_opts, .execute() *)

(** How the process ends: [main] returns, or [sys.exit(code)]. *)
Inductive outcome := Returned | SysExit (code : Z).

(** The exit status of the process; a [main] that returns ends it with 0. *)
Definition exit_status (o : outcome) : Z :=
  match o with Returned => 0 | SysExit c => c end.

(** What [main] reads from outside. *)
Record world := World {
  (** [getopt.gnu_getopt(sys.argv[1:], ...)]: [GetoptError], or the options
      (name, value) in command line order and the positional arguments *)
  gnu_getopt : exn + (list (string * string) * list string);
  (** [executor.validate_ionice_class]: the exception it raises, if any *)
  validate_ionice_class : string -> option exn;
  (** [rsync_system_backup.destinations.RSYNCD_PORT] *)
  RSYNCD_PORT : Z;
  (** [os.environ.get('RSYNC_MODULE_PATH')] *)
  RSYNC_MODULE_PATH : option string;
  (** [executor.contexts.create_context], called with [context_opts] as
      keyword arguments *)
  create_context : gmap string value -> exn + value;
  (** [RsyncSystemBackup], built with [program_opts] as keyword arguments,
      and its [execute()]: the exception raised, if any *)
  execute : gmap string value -> option exn;
  (** [humanfriendly.terminal.connected_to_terminal()] *)
  connected_to_terminal : bool
}.

(** ** The usage text *)

(** [__doc__]: the module has no docstring. *)
Definition module_doc : option string := None.

(** [humanfriendly.terminal.usage(usage_text)]: the exception it raises, if
    any.  With a terminal for its output the text is coloured first
    ([format_usage]), which for [None] raises [TypeError]; without one the
    text goes out as it is. *)
Definition usage (w : world) (usage_text : option string) : option exn :=
  match usage_text with
  | Some _ => None
  | None =>
      if connected_to_terminal w then Some (Exn TypeError UsageOfNone)
      else None
  end.

Arguments usage : simpl never.

(** ** The action resolver: [enable_explicit_action] *)

(** The triad the [for] loop of [enable_explicit_action] runs over. *)
Definition ACTIONS : list string :=
  ["backup_enabled"; "snapshot_enabled"; "rotate_enabled"].

(** [d.setdefault(k, v)], for its effect on the dict. *)
Definition setdefault (k : string) (v : value) (d : gmap string value)
  : gmap string value :=
  match d !! k with
  | Some _ => d
  | None => <[k := v]> d
  end.

Definition enable_explicit_action
    (options : gmap string value) (explicit_action : string)
  : gmap string value :=
  foldl (fun opts implicit_action =>
           if negb (String.eqb implicit_action explicit_action)
           then setdefault implicit_action (VBool false) opts
           else opts)
        (<[explicit_action := VBool true]> options)
        ACTIONS.

(** ** The option loop of [main] *)

(** The local variables of [main] that the loop updates, and the events so
    far. *)
Record state := State {
  program_opts : gmap string value;
  dest_opts : gmap string value;
  trace : list event
}.

Definition with_program_opts (f : gmap string value -> gmap string value)
    (st : state) : state :=
  {| program_opts := f (program_opts st);
     dest_opts := dest_opts st;
     trace := trace st |}.

Definition with_dest_opts (f : gmap string value -> gmap string value)
    (st : state) : state :=
  {| program_opts := program_opts st;
     dest_opts := f (dest_opts st);
     trace := trace st |}.

Definition emit (ev : event) (st : state) : state :=
  {| program_opts := program_opts st;
     dest_opts := dest_opts st;
     trace := trace st ++ [ev] |}.

(** Where control goes inside the [try] block: on to the next statement,
    out of [main] by [return], or to the [except] clause. *)
Inductive flow :=
| Continue (st : state)
| Return_ (st : state)
| Raise (e : exn) (st : state).

Definition flow_state (r : flow) : state :=
  match r with Continue st | Return_ st | Raise _ st => st end.

(** [opt in (a, b, ...)] *)
Definition is_in (opt : string) (names : list string) : bool :=
  existsb (String.eqb opt) names.

(** The keyword arguments of [SecureTunnel] for a [--tunnel] value, or the
    [ValueError] of [int]. *)
Definition tunnel_opts (w : world) (val : string)
  : exn + gmap string value :=
  let '(ssh_user, _, val) := PyStr.rpartition "@" val in
  let '(ssh_alias, _, port_number) := PyStr.partition ":" val in
  let tunnel_opts : gmap string value :=
    <["remote_port" := VInt (RSYNCD_PORT w)]>
      (<["ssh_user" := VStr ssh_user]>
         (<["ssh_alias" := VStr ssh_alias]> ∅)) in
  if PyStr.truthy port_number then
    match PyStr.int port_number with
    | Some n => inr (<["port" := VInt n]> tunnel_opts)
    | None => inl (Exn ValueError (InvalidLiteral port_number))
    end
  else inr tunnel_opts.

(** One turn of [for option, value in options]; [val] is the [value] of
    the source. *)
Definition handle_option (w : world) (opt val : string) (st : state) : flow :=
  if is_in opt ["-b"; "--backup"] then
    Continue (with_program_opts
                (fun o => enable_explicit_action o "backup_enabled") st)
  else if is_in opt ["-s"; "--snapshot"] then
    Continue (with_program_opts
                (fun o => enable_explicit_action o "snapshot_enabled") st)
  else if is_in opt ["-r"; "--rotate"] then
    Continue (with_program_opts
                (fun o => enable_explicit_action o "rotate_enabled") st)
  else if is_in opt ["-m"; "--mount"] then
    Continue (with_program_opts (insert "mount_point" (VStr val)) st)
  else if is_in opt ["-c"; "--crypto"] then
    Continue (with_program_opts (insert "crypto_device" (VStr val)) st)
  else if is_in opt ["-t"; "--tunnel"] then
    match tunnel_opts w val with
    | inl e => Raise e st
    | inr kw =>
        Continue (with_dest_opts
                    (insert "ssh_tunnel" (VObject SecureTunnel kw))
                    (emit (Construct SecureTunnel kw) st))
    end
  else if is_in opt ["-i"; "--ionice"] then
    let val := PyStr.strip (PyStr.lower val) in
    match validate_ionice_class w val with
    | Some e => Raise e st
    | None => Continue (with_program_opts (insert "ionice" (VStr val)) st)
    end
  else if is_in opt ["-u"; "--no-sudo"] then
    Continue (with_program_opts (insert "sudo_enabled" (VBool false)) st)
  else if is_in opt ["-n"; "--dry-run"] then
    Continue (with_program_opts (insert "dry_run" (VBool true))
                (emit (Log INFO "Performing a dry run (because of %s option) .."
                           (StrArg opt) None) st))
  else if is_in opt ["-f"; "--force"] then
    Continue (with_program_opts (insert "force" (VBool true)) st)
  else if is_in opt ["-x"; "--exclude"] then
    match setdefault "exclude_list" (VList []) (program_opts st) !! "exclude_list" with
    | Some (VList l) =>
        Continue (with_program_opts
                    (insert "exclude_list" (VList (l ++ [val]))) st)
    | _ =>
        Raise (Exn AttributeError (Text "object has no attribute 'append'"))
              (with_program_opts (setdefault "exclude_list" (VList [])) st)
    end
  else if String.eqb opt "--multi-fs" then
    Continue (with_program_opts (insert "multi_fs" (VBool true)) st)
  else if String.eqb opt "--disable-notifications" then
    Continue (with_program_opts
                (insert "notifications_enabled" (VBool false)) st)
  else if is_in opt ["-v"; "--verbose"] then
    Continue (emit IncreaseVerbosity st)
  else if is_in opt ["-q"; "--quiet"] then
    Continue (emit DecreaseVerbosity st)
  else if is_in opt ["-h"; "--help"] then
    match usage w module_doc with
    | Some e => Raise e st
    | None => Return_ (emit Usage st)
    end
  else
    Raise (Exn Exception_ (Text "Unhandled option! (programming error)")) st.

(** [for option, value in options: ...] *)
Fixpoint process_options (w : world) (options : list (string * string))
    (st : state) : flow :=
  match options with
  | [] => Continue st
  | (opt, val) :: rest =>
      match handle_option w opt val st with
      | Continue st' => process_options w rest st'
      | stop => stop
      end
  end.

(** ** The positional arguments *)

(** [not os.environ.get('RSYNC_MODULE_PATH')] *)
Definition no_module_path (w : world) : bool :=
  match RSYNC_MODULE_PATH w with
  | Some s => negb (PyStr.truthy s)
  | None => true
  end.

Definition arity_error (n : nat) : exn :=
  Exn Exception_
      (Text ("Expected one or two positional arguments! (got "
             +:+ PyStr.format_i n +:+ ")")).

(** The statements of the [try] block after the loop. *)
Definition resolve_arguments (w : world) (arguments : list string)
    (st : state) : flow :=
  if (2 <? length arguments)%nat then
    Raise (arity_error (length arguments)) st
  else
    (* if len(arguments) == 2: program_opts['source'] = arguments.pop(0) *)
    let '(st, arguments) :=
      match arguments with
      | [a0; a1] =>
          (with_program_opts (insert "source" (VStr a0)) st, [a1])
      | _ => (st, arguments)
      end in
    match arguments with
    | a0 :: _ =>
        let st := with_dest_opts (insert "expression" (VStr a0)) st in
        let st := emit (Construct Destination (dest_opts st)) st in
        Continue (with_program_opts
                    (insert "destination" (VObject Destination (dest_opts st)))
                    st)
    | [] =>
        if no_module_path w then
          match usage w module_doc with
          | Some e => Raise e st
          | None => Return_ (emit Usage st)
          end
        else Continue st
    end.

(** The whole first [try] block. *)
Definition parse (w : world) (st : state) : flow :=
  match gnu_getopt w with
  | inl e => Raise e st
  | inr (options, arguments) =>
      match process_options w options st with
      | Continue st' => resolve_arguments w arguments st'
      | stop => stop
      end
  end.

(** ** Dispatch and outcome triage *)

(** The [except] clause of the second [try] block. *)
Definition triage (w : world) (e : exn) (tr : list event)
  : list event * outcome :=
  if is_RsyncSystemBackupError e then
    if is_MissingBackupDiskError e && negb (connected_to_terminal w) then
      (tr ++ [Log INFO "Skipping backup: %s" (ExnArg e) None], SysExit 0)
    else
      (tr ++ [Log ERROR "Aborting due to error: %s" (ExnArg e) None], SysExit 1)
  else
    (tr ++ [Log ERROR "Aborting due to unhandled exception!" NoArg (Some e)],
     SysExit 1).

(** [context_opts = dict()]; no option of the table fills it. *)
Definition context_opts : gmap string value := ∅.

(** The second [try] block. *)
Definition run (w : world) (st : state) : list event * outcome :=
  match create_context w context_opts with
  | inl e => triage w e (trace st)
  | inr ctx =>
      let program_opts := <["source_context" := ctx]> (program_opts st) in
      let tr := trace st ++ [Execute program_opts] in
      match execute w program_opts with
      | Some e => triage w e tr
      | None => (tr, Returned)
      end
  end.

Definition initial_state : state :=
  {| program_opts := ∅; dest_opts := ∅; trace := [InstallLogging] |}.

Definition main (w : world) : list event * outcome :=
  match parse w initial_state with
  | Raise e st => (trace st ++ [Warning "Error: %s" e], SysExit 1)
  | Return_ st => (trace st, Returned)
  | Continue st => run w st
  end.

(** ** Notions the properties are stated with *)

(** The port segment of a [--tunnel] value: what [main] binds to
    [port_number]. *)
Definition port_segment (val : string) : string :=
  (PyStr.partition ":" (PyStr.rpartition "@" val).2).2.

(** A bag that went through at least one explicit flag defines the whole
    triad; [seen] are the flags so far. *)
Definition resolved (seen : list string) (bag : gmap string value) : Prop :=
  ∀ k, k ∈ ACTIONS → bag !! k = Some (VBool (bool_decide (k ∈ seen))).

Definition action_flags : list string :=
  ["-b"; "--backup"; "-s"; "--snapshot"; "-r"; "--rotate"].

Definition help_flags : list string := ["-h"; "--help"].

(** The action that an action flag names in the loop of [main]. *)
Definition explicit_action_of (opt : string) : string :=
  if is_in opt ["-b"; "--backup"] then "backup_enabled"
  else if is_in opt ["-s"; "--snapshot"] then "snapshot_enabled"
  else "rotate_enabled".

(** The keys of [program_opts] that the options other than the action flags
    assign. *)
Definition scalar_keys : list string :=
  ["mount_point"; "crypto_device"; "ionice"; "sudo_enabled"; "dry_run";
   "force"; "exclude_list"; "multi_fs"; "notifications_enabled"].

(** Events that the option loop never produces. *)
Definition beyond_loop (ev : event) : Prop :=
  match ev with
  | Execute _ | Construct Destination _ => True
  | _ => False
  end.

Definition is_Execute (ev : event) : Prop :=
  match ev with Execute _ => True | _ => False end.

(** ** A concrete world, to run [main] on *)

Module Sample.

(** The classes that [executor.validate_ionice_class] accepts. *)
Definition ionice_classes : list string := ["idle"; "best-effort"; "realtime"].

Definition validate (val : string) : option exn :=
  if is_in val ionice_classes then None
  else Some (Exn ValueError (Text "Invalid I/O scheduling class!")).

(** A world in which [gnu_getopt] gave [options] and [arguments], the
    engine ends as [raised] says, and [tty] tells whether a terminal is
    attached. *)
Definition world_of (options : list (string * string))
    (arguments : list string) (module_path : option string)
    (raised : option exn) (tty : bool) : world :=
  {| gnu_getopt := inr (options, arguments);
     validate_ionice_class := validate;
     RSYNCD_PORT := 873;
     RSYNC_MODULE_PATH := module_path;
     create_context := λ kw, inr (VContext kw);
     execute := λ _, raised;
     connected_to_terminal := tty |}.

Definition disk_missing : exn :=
  Exn MissingBackupDiskError (Text "It looks like the backup disk isn't connected!").

End Sample.

(** ** The table of options, and what each option writes *)

(** The names [gnu_getopt] is called with: the letters of the short option
    string and the list of long options. *)
Definition option_table : list string :=
  ["-b"; "-s"; "-r"; "-m"; "-c"; "-t"; "-i"; "-u"; "-n"; "-x"; "-f"; "-v";
   "-q"; "-h";
   "--backup"; "--snapshot"; "--rotate"; "--mount"; "--crypto"; "--tunnel";
   "--ionice"; "--no-sudo"; "--dry-run"; "--multi-fs"; "--exclude"; "--force";
   "--disable-notifications"; "--verbose"; "--quiet"; "--help"].

(** The options whose branch of the loop assigns the key [k] of
    [program_opts]. *)
Definition writers (k : string) : list string :=
  if is_in k ACTIONS then action_flags
  else if String.eqb k "mount_point" then ["-m"; "--mount"]
  else if String.eqb k "crypto_device" then ["-c"; "--crypto"]
  else if String.eqb k "ionice" then ["-i"; "--ionice"]
  else if String.eqb k "sudo_enabled" then ["-u"; "--no-sudo"]
  else if String.eqb k "dry_run" then ["-n"; "--dry-run"]
  else if String.eqb k "force" then ["-f"; "--force"]
  else if String.eqb k "exclude_list" then ["-x"; "--exclude"]
  else if String.eqb k "multi_fs" then ["--multi-fs"]
  else if String.eqb k "notifications_enabled" then ["--disable-notifications"]
  else [].

(** The values given to the options named in [flags], in command line
    order. *)
Definition values_of (flags : list string) (options : list (string * string))
  : list string :=
  map snd (List.filter (λ ov, is_in ov.1 flags) options).

(** [dest_opts] after a tunnel option with the value [last_tunnel], when
    there was one: the [SecureTunnel] of that value under [ssh_tunnel]. *)
Definition with_tunnel (w : world) (last_tunnel : option string)
    (dest_opts : gmap string value) : gmap string value :=
  match last_tunnel with
  | Some val =>
      match tunnel_opts w val with
      | inr kw => <["ssh_tunnel" := VObject SecureTunnel kw]> dest_opts
      | inl _ => dest_opts
      end
  | None => dest_opts
  end.

(** The actions that the action flags among [options] name, in command
    line order. *)
Definition actions_of (options : list (string * string)) : list string :=
  map (λ ov, explicit_action_of ov.1)
      (List.filter (λ ov, is_in ov.1 action_flags) options).

(** The names under which [main] hands values to [RsyncSystemBackup]. *)
Definition engine_keywords : list string :=
  ACTIONS ++ scalar_keys ++ ["source"; "destination"; "source_context"].

(** The usage text and the flow of control: shown last where [main]
    returns, by a [usage] that did not fail, and not shown where [main]
    goes on or fails. *)
Definition usage_last (w : world) (r : flow) : Prop :=
  match r with
  | Return_ st =>
      usage w module_doc = None ∧ ∃ tr, trace st = tr ++ [Usage] ∧ Usage ∉ tr
  | Continue st | Raise _ st => Usage ∉ trace st
  end.

(** A string of decimal digits only. *)
Fixpoint all_digits (s : string) : bool :=
  match s with
  | EmptyString => true
  | String c s' => PyStr.isdigit c && all_digits s'
  end.

(** Nothing to drop on the left of [s]. *)
Definition lstripped (space : ascii → bool) (s : string) : Prop :=
  match s with
  | EmptyString => True
  | String c _ => space c = false
  end.

(** [exclude_list] holds [l]: absent for the empty list. *)
Definition excludes (l : list string) (st : state) : Prop :=
  program_opts st !! "exclude_list"
  = match l with [] => None | _ => Some (VList l) end.

(** How far [coloredlogs.increase_verbosity] and [decrease_verbosity] were
    called: the calls up minus the calls down. *)
Fixpoint net_verbosity (tr : list event) : Z :=
  match tr with
  | [] => 0
  | IncreaseVerbosity :: tr' => net_verbosity tr' + 1
  | DecreaseVerbosity :: tr' => net_verbosity tr' - 1
  | _ :: tr' => net_verbosity tr'
  end.

(** The number of options named in [flags]. *)
Definition count_of (flags : list string) (options : list (string * string))
  : Z :=
  Z.of_nat (length (values_of flags options)).

(** The events of the first [try] block. *)
Definition parse_event (ev : event) : Prop :=
  match ev with
  | InstallLogging | Usage | IncreaseVerbosity | DecreaseVerbosity
  | Construct _ _ => True
  | Log INFO _ (StrArg _) None => True
  | _ => False
  end.

(** An event that tells the user of an error: a warning, or a log record at
    error level. *)
Definition error_event (ev : event) : Prop :=
  match ev with
  | Warning _ _ | Log ERROR _ _ _ => True
  | _ => False
  end.

(** * Properties *)

(** ** The action resolver *)

Section ActionResolver.

Implicit Types (bag : gmap string value) (a k : string) (v : value).

Lemma lookup_setdefault_eq k v bag :
  setdefault k v bag !! k = Some (default v (bag !! k)).
Proof.
  unfold setdefault. destruct (bag !! k) as [x|] eqn:E; simpl.
  - exact E.
  - apply lookup_insert_eq.
Qed.

Lemma lookup_setdefault_ne k j v bag :
  k ≠ j → setdefault k v bag !! j = bag !! j.
Proof.
  intros Hne. unfold setdefault. destruct (bag !! k); [done|].
  by apply lookup_insert_ne.
Qed.

Lemma elem_of_ACTIONS k :
  k ∈ ACTIONS ↔
  k = "backup_enabled" ∨ k = "snapshot_enabled" ∨ k = "rotate_enabled".
Proof.
  unfold ACTIONS. rewrite !elem_of_cons, elem_of_nil. tauto.
Qed.

(** Every key of the result, read off the key of the argument. *)
Lemma lookup_enable_explicit_action bag a k :
  enable_explicit_action bag a !! k =
    if decide (k = a) then Some (VBool true)
    else if decide (k ∈ ACTIONS)
         then Some (default (VBool false) (bag !! k))
         else bag !! k.
Proof.
  unfold enable_explicit_action, ACTIONS at 1. cbn [foldl].
  assert (Hstep : ∀ (i : string) (d : gmap string value),
    (if negb (String.eqb i a) then setdefault i (VBool false) d else d) !! k
    = if decide (k = i)
      then (if decide (k = a) then d !! k
            else Some (default (VBool false) (d !! k)))
      else d !! k).
  { intros i d. destruct (String.eqb_spec i a) as [-> | Hia]; simpl.
    - destruct (decide (k = a)) as [-> | ]; [ | done].
      by destruct (decide (a = a)).
    - destruct (decide (k = i)) as [-> | Hki].
      + destruct (decide (i = a)); [done|]. apply lookup_setdefault_eq.
      + by apply lookup_setdefault_ne. }
  rewrite !Hstep. clear Hstep.
  destruct (decide (k = a)) as [-> | Hka].
  - repeat (destruct (decide _)); apply lookup_insert_eq.
  - rewrite lookup_insert_ne by done.
    destruct (decide (k ∈ ACTIONS)) as [Hin|Hnin].
    + apply elem_of_ACTIONS in Hin.
      destruct Hin as [-> | [-> | ->]]; by repeat (case_decide; try done).
    + rewrite elem_of_ACTIONS in Hnin.
      repeat (case_decide; [tauto|]). done.
Qed.

Lemma resolved_first bag a :
  (∀ k, k ∈ ACTIONS → bag !! k = None) →
  resolved [a] (enable_explicit_action bag a).
Proof.
  intros Hnone k Hk. rewrite lookup_enable_explicit_action.
  destruct (decide (k = a)) as [-> | Hne].
  - rewrite bool_decide_eq_true_2; [done | apply list_elem_of_here].
  - rewrite decide_True by done. rewrite (Hnone k Hk). simpl.
    rewrite bool_decide_eq_false_2; [done|].
    rewrite list_elem_of_singleton. done.
Qed.

Lemma resolved_next seen bag a :
  resolved seen bag →
  resolved (seen ++ [a]) (enable_explicit_action bag a).
Proof.
  intros Hres k Hk. rewrite lookup_enable_explicit_action.
  destruct (decide (k = a)) as [-> | Hne].
  - rewrite bool_decide_eq_true_2; [done|].
    apply elem_of_app. right. apply list_elem_of_here.
  - rewrite decide_True by done. rewrite (Hres k Hk). simpl.
    do 2 f_equal. apply bool_decide_ext.
    rewrite elem_of_app, list_elem_of_singleton. tauto.
Qed.

Lemma resolved_foldl flags seen bag :
  resolved seen bag →
  resolved (seen ++ flags) (foldl enable_explicit_action bag flags).
Proof.
  revert seen bag. induction flags as [|a flags IH]; intros seen bag Hres.
  - by rewrite app_nil_r.
  - cbn [foldl]. replace (seen ++ a :: flags) with ((seen ++ [a]) ++ flags)
      by (by rewrite <- app_assoc).
    apply IH. by apply resolved_next.
Qed.

End ActionResolver.

(** C9. One call [enable_explicit_action(bag, a)] for an action [a] of the
    triad: key [a] becomes true; each of the two other keys of the triad
    becomes false when it is absent from [bag] and keeps the value it has
    when it is present; every key outside the triad is as it was. *)
Theorem enable_explicit_action_frame (bag : gmap string value) (a : string) :
  a ∈ ACTIONS →
  enable_explicit_action bag a !! a = Some (VBool true)
  ∧ (∀ k, k ∈ ACTIONS → k ≠ a →
       (bag !! k = None →
        enable_explicit_action bag a !! k = Some (VBool false))
       ∧ (∀ v, bag !! k = Some v →
               enable_explicit_action bag a !! k = Some v))
  ∧ (∀ k, k ∉ ACTIONS → enable_explicit_action bag a !! k = bag !! k).
Proof.
  intros Ha. split; [|split].
  - rewrite lookup_enable_explicit_action. by rewrite decide_True.
  - intros k Hk Hne. rewrite lookup_enable_explicit_action.
    rewrite decide_False, decide_True by done.
    split; [intros -> | intros v ->]; done.
  - intros k Hk. rewrite lookup_enable_explicit_action.
    rewrite decide_False by (intros ->; done).
    by rewrite decide_False.
Qed.

Lemma enable_explicit_action_frame_witness :
  "backup_enabled" ∈ ACTIONS
  ∧ enable_explicit_action
      (<["snapshot_enabled" := VBool true]> (<["force" := VBool true]> ∅))
      "backup_enabled" !! "backup_enabled" = Some (VBool true).
Proof.
  assert (H : "backup_enabled" ∈ ACTIONS) by (apply elem_of_ACTIONS; auto).
  split; [exact H|].
  exact (proj1 (enable_explicit_action_frame _ "backup_enabled" H)).
Defined.

(** C1. A sequence of explicit action flags, run one after the other through
    [enable_explicit_action] from a bag without any key of the triad: the
    empty sequence leaves all three keys absent; any other sequence leaves
    each key of the triad present, true when the flag occurs in the sequence
    and false when it does not. *)
Theorem explicit_actions_exact (bag : gmap string value) (flags : list string) :
  (∀ k, k ∈ ACTIONS → bag !! k = None) →
  (flags = [] →
   ∀ k, k ∈ ACTIONS → foldl enable_explicit_action bag flags !! k = None)
  ∧ (flags ≠ [] →
     ∀ k, k ∈ ACTIONS →
          foldl enable_explicit_action bag flags !! k
          = Some (VBool (bool_decide (k ∈ flags)))).
Proof.
  intros Hnone. split.
  - intros ->. exact Hnone.
  - destruct flags as [|a flags]; [done|]. intros _. cbn [foldl].
    apply (resolved_foldl flags [a]). by apply resolved_first.
Qed.

Lemma explicit_actions_exact_witness :
  foldl enable_explicit_action (<["force" := VBool true]> ∅)
        ["backup_enabled"; "rotate_enabled"] !! "snapshot_enabled"
  = Some (VBool false).
Proof.
  refine (proj2 (explicit_actions_exact (<["force" := VBool true]> ∅)
                   ["backup_enabled"; "rotate_enabled"] _) _
                "snapshot_enabled" _).
  - intros k Hk. apply elem_of_ACTIONS in Hk.
    destruct Hk as [-> | [-> | ->]]; reflexivity.
  - discriminate.
  - apply elem_of_ACTIONS; auto.
Defined.

(** ** Splitting strings *)

Section Splitting.

Variable sep : ascii.

Lemma partition_inv s h m t :
  PyStr.partition sep s = (h, m, t) →
  PyStr.contains sep h = false
  ∧ ((m = String sep "" ∧ s = h +:+ String sep t)
     ∨ (PyStr.contains sep s = false ∧ h = s ∧ m = "" ∧ t = "")).
Proof.
  revert h m t. induction s as [|c s IH]; intros h m t; simpl.
  - intros [= <- <- <-]. simpl; intuition.
  - destruct (Ascii.eqb_spec c sep) as [-> | Hne].
    + intros [= <- <- <-]. simpl; intuition.
    + destruct (PyStr.partition sep s) as [[h' m'] t'].
      intros [= <- <- <-]. destruct (IH _ _ _ eq_refl) as [Hh Hcase].
      simpl. rewrite Hh.
      assert (Hc : Ascii.eqb c sep = false) by by apply Ascii.eqb_neq.
      rewrite Hc. split; [done|].
      destruct Hcase as [[-> ->] | (Hs & -> & -> & ->)].
      * left. auto.
      * right. rewrite Hs. auto.
Qed.

Lemma rpartition_inv s h m t :
  PyStr.rpartition sep s = (h, m, t) →
  PyStr.contains sep t = false
  ∧ ((m = String sep "" ∧ s = h +:+ String sep t)
     ∨ (PyStr.contains sep s = false ∧ h = "" ∧ m = "" ∧ t = s)).
Proof.
  revert h m t. induction s as [|c s IH]; intros h m t; simpl.
  - intros [= <- <- <-]. simpl; intuition.
  - destruct (PyStr.contains sep s) eqn:Hs.
    + destruct (PyStr.rpartition sep s) as [[h' m'] t'].
      intros [= <- <- <-]. destruct (IH _ _ _ eq_refl) as [Ht Hcase].
      split; [done|].
      destruct Hcase as [[-> ->] | (Hs' & _)]; [|congruence].
      left. auto.
    + destruct (Ascii.eqb_spec c sep) as [-> | Hne].
      * intros [= <- <- <-]. simpl; intuition.
      * intros [= <- <- <-]. simpl. rewrite Hs.
        assert (Hc : Ascii.eqb c sep = false) by by apply Ascii.eqb_neq.
        rewrite Hc. intuition.
Qed.

End Splitting.

Lemma truthy_false s : PyStr.truthy s = false ↔ s = "".
Proof. destruct s; simpl; split; congruence. Qed.

(** C2. The keyword arguments built for a [--tunnel] value: the value is
    split at its last ["@"] into [ssh_user] and a remainder (no ["@"] at
    all: [ssh_user] is empty and the remainder is the value); the remainder
    is split at its first [":"] into [ssh_alias] and the port segment (no
    [":"]: the alias is the remainder and the segment is empty); a segment
    that is not empty gives the SSH [port], and [remote_port] is
    [RSYNCD_PORT] whatever the value.  The two values of the
    specification come out as stated there. *)
Theorem tunnel_opts_split (w : world) :
  (∀ val, ∃ ssh_user rest ssh_alias port_number,
     (val = ssh_user +:+ "@" +:+ rest
      ∨ (PyStr.contains "@" val = false ∧ ssh_user = "" ∧ rest = val))
     ∧ PyStr.contains "@" rest = false
     ∧ (rest = ssh_alias +:+ ":" +:+ port_number
        ∨ (PyStr.contains ":" rest = false
           ∧ ssh_alias = rest ∧ port_number = ""))
     ∧ PyStr.contains ":" ssh_alias = false
     ∧ port_segment val = port_number
     ∧ tunnel_opts w val =
         let common : gmap string value :=
           <["remote_port" := VInt (RSYNCD_PORT w)]>
             (<["ssh_user" := VStr ssh_user]>
                (<["ssh_alias" := VStr ssh_alias]> ∅)) in
         if decide (port_number = "") then inr common
         else match PyStr.int port_number with
              | Some n => inr (<["port" := VInt n]> common)
              | None => inl (Exn ValueError (InvalidLiteral port_number))
              end)
  ∧ (∀ val kw, tunnel_opts w val = inr kw →
               kw !! "remote_port" = Some (VInt (RSYNCD_PORT w)))
  ∧ (∃ kw, tunnel_opts w "alice@backup-host:2222" = inr kw
           ∧ kw !! "ssh_user" = Some (VStr "alice")
           ∧ kw !! "ssh_alias" = Some (VStr "backup-host")
           ∧ kw !! "port" = Some (VInt 2222)
           ∧ kw !! "remote_port" = Some (VInt (RSYNCD_PORT w)))
  ∧ (∃ kw, tunnel_opts w "backup-host" = inr kw
           ∧ kw !! "ssh_user" = Some (VStr "")
           ∧ kw !! "ssh_alias" = Some (VStr "backup-host")
           ∧ kw !! "port" = None
           ∧ kw !! "remote_port" = Some (VInt (RSYNCD_PORT w))).
Proof.
  split; [|split; [|split]].
  - intros val. unfold tunnel_opts, port_segment.
    destruct (PyStr.rpartition "@" val) as [[u m] r] eqn:Hr. cbn [snd].
    destruct (PyStr.partition ":" r) as [[a m'] p] eqn:Hp. cbn [snd].
    apply rpartition_inv in Hr as [Hr1 Hr2].
    apply partition_inv in Hp as [Hp1 Hp2].
    exists u, r, a, p.
    split; [destruct Hr2 as [[_ ->] | (? & -> & _ & ->)]; auto|].
    split; [done|].
    split; [destruct Hp2 as [[_ Hp2] | (? & Ha & _ & Hp2)]; auto|].
    split; [done|]. split; [done|].
    destruct p; simpl; [done|].
    by destruct (PyStr.int _).
  - intros val kw. unfold tunnel_opts.
    destruct (PyStr.rpartition "@" val) as [[u m] r].
    destruct (PyStr.partition ":" r) as [[a m'] p].
    destruct (PyStr.truthy p); [destruct (PyStr.int p); [|done]|];
      intros [= <-]; by simplify_map_eq.
  - eexists. split; [reflexivity|]. by simplify_map_eq.
  - eexists. split; [reflexivity|]. by simplify_map_eq.
Qed.

(** ** The option loop *)

Section OptionLoop.

Variable w : world.

Implicit Types (opt val k : string) (st : state).

Lemma is_in_spec opt names : is_in opt names = true ↔ opt ∈ names.
Proof.
  unfold is_in. rewrite existsb_exists. split.
  - intros (x & Hx & Heq). apply String.eqb_eq in Heq as ->.
    by apply list_elem_of_In.
  - intros Hin. exists opt. split; [by apply list_elem_of_In|].
    apply String.eqb_refl.
Qed.

Lemma is_in_action_flags opt :
  is_in opt action_flags =
    is_in opt ["-b"; "--backup"] || is_in opt ["-s"; "--snapshot"]
    || is_in opt ["-r"; "--rotate"].
Proof. unfold is_in; simpl. by rewrite !orb_false_r, !orb_assoc. Qed.

(** Case analysis over the [if]/[elif] chain of the loop body. *)
Ltac option_cases :=
  unfold handle_option;
  repeat match goal with
    | |- context [if is_in ?o ?l then _ else _] =>
        let E := fresh "E" in destruct (is_in o l) eqn:E
    | |- context [if String.eqb ?o ?l then _ else _] =>
        let E := fresh "E" in destruct (String.eqb o l) eqn:E
    | |- context [match usage ?w ?d with Some _ => _ | None => _ end] =>
        destruct (usage w d)
    end.

Lemma handle_option_tunnel opt val st :
  is_in opt ["-t"; "--tunnel"] = true →
  handle_option w opt val st =
    match tunnel_opts w val with
    | inl e => Raise e st
    | inr kw =>
        Continue (with_dest_opts
                    (insert "ssh_tunnel" (VObject SecureTunnel kw))
                    (emit (Construct SecureTunnel kw) st))
    end.
Proof.
  intros Hin. apply is_in_spec in Hin.
  rewrite !elem_of_cons, elem_of_nil in Hin.
  destruct Hin as [-> | [-> | []]]; reflexivity.
Qed.

Lemma handle_option_ionice opt val st :
  is_in opt ["-i"; "--ionice"] = true →
  handle_option w opt val st =
    match validate_ionice_class w (PyStr.strip (PyStr.lower val)) with
    | Some e => Raise e st
    | None =>
        Continue (with_program_opts
                    (insert "ionice" (VStr (PyStr.strip (PyStr.lower val))))
                    st)
    end.
Proof.
  intros Hin. apply is_in_spec in Hin.
  rewrite !elem_of_cons, elem_of_nil in Hin.
  destruct Hin as [-> | [-> | []]]; reflexivity.
Qed.

Lemma handle_option_help opt val st :
  is_in opt help_flags = true →
  handle_option w opt val st =
    match usage w module_doc with
    | Some e => Raise e st
    | None => Return_ (emit Usage st)
    end.
Proof.
  intros Hin. apply is_in_spec in Hin. unfold help_flags in Hin.
  rewrite !elem_of_cons, elem_of_nil in Hin.
  destruct Hin as [-> | [-> | []]]; reflexivity.
Qed.

(** Only a help flag leaves the loop by [return]. *)
Lemma handle_option_return opt val st st' :
  handle_option w opt val st = Return_ st' →
  is_in opt help_flags = true.
Proof.
  option_cases; try discriminate; try done.
  - by destruct (tunnel_opts w val).
  - by destruct (validate_ionice_class w _).
  - by destruct (_ !! "exclude_list") as [[]|].
Qed.

(** The keys of [program_opts] that one turn of the loop leaves alone. *)
Lemma handle_option_program_opts opt val st k :
  k ∉ scalar_keys →
  is_in opt action_flags = false ∨ k ∉ ACTIONS →
  program_opts (flow_state (handle_option w opt val st)) !! k
  = program_opts st !! k.
Proof.
  intros Hk Hact. unfold scalar_keys in Hk.
  rewrite !not_elem_of_cons in Hk.
  destruct Hk as (? & ? & ? & ? & ? & ? & ? & ? & ? & _).
  rewrite is_in_action_flags in Hact.
  assert (Haction : ∀ a, a ∈ ACTIONS →
            is_in opt action_flags = true →
            enable_explicit_action (program_opts st) a !! k
            = program_opts st !! k).
  { intros a Ha Hflag. rewrite is_in_action_flags in Hflag.
    destruct Hact as [Hact | Hact]; [congruence|].
    rewrite lookup_enable_explicit_action.
    rewrite decide_False by (intros ->; done). by rewrite decide_False. }
  option_cases; cbn [flow_state with_program_opts with_dest_opts emit
                      program_opts];
    try (by rewrite lookup_insert_ne); try done.
  - apply Haction; [apply elem_of_ACTIONS; auto|].
    rewrite is_in_action_flags, E. done.
  - apply Haction; [apply elem_of_ACTIONS; auto|].
    rewrite is_in_action_flags, E0. by rewrite orb_true_r.
  - apply Haction; [apply elem_of_ACTIONS; auto|].
    rewrite is_in_action_flags, E1. by rewrite orb_true_r.
  - by destruct (tunnel_opts w val).
  - destruct (validate_ionice_class w _); [done|].
    cbn. by rewrite lookup_insert_ne.
  - destruct (_ !! "exclude_list") as [[]|];
      cbn; try (by rewrite lookup_insert_ne);
      by rewrite lookup_setdefault_ne.
Qed.

(** The events of one turn of the loop. *)
Lemma handle_option_trace opt val st :
  ∃ evs, trace (flow_state (handle_option w opt val st)) = trace st ++ evs
         ∧ Forall (λ ev, ¬ beyond_loop ev) evs.
Proof.
  assert (H0 : ∃ evs, trace st = trace st ++ evs
                      ∧ Forall (λ ev, ¬ beyond_loop ev) evs).
  { exists []. by rewrite app_nil_r. }
  assert (H1 : ∀ ev, ¬ beyond_loop ev →
               ∃ evs, trace st ++ [ev] = trace st ++ evs
                      ∧ Forall (λ ev, ¬ beyond_loop ev) evs).
  { intros ev Hev. exists [ev]. split; [done|]. by constructor. }
  option_cases; cbn [flow_state with_program_opts with_dest_opts emit trace];
    try exact H0; try (apply H1; simpl; tauto).
  - destruct (tunnel_opts w val); cbn; [exact H0|]. apply H1. simpl. tauto.
  - by destruct (validate_ionice_class w _).
  - by destruct (_ !! "exclude_list") as [[]|].
Qed.

Lemma process_options_app pre rest st :
  process_options w (pre ++ rest) st =
    match process_options w pre st with
    | Continue st' => process_options w rest st'
    | stop => stop
    end.
Proof.
  revert st. induction pre as [|[opt val] pre IH]; intros st; [done|].
  simpl. destruct (handle_option w opt val st); auto.
Qed.

Lemma process_options_program_opts options st k :
  k ∉ scalar_keys →
  Forall (λ ov, is_in ov.1 action_flags = false) options ∨ k ∉ ACTIONS →
  program_opts (flow_state (process_options w options st)) !! k
  = program_opts st !! k.
Proof.
  intros Hk. revert st.
  induction options as [|[opt val] options IH]; intros st Hact; [done|].
  assert (Hhd : is_in opt action_flags = false ∨ k ∉ ACTIONS).
  { destruct Hact as [Hact | ?]; [left | by right].
    by apply Forall_cons_1 in Hact as [? _]. }
  assert (Htl : Forall (λ ov, is_in ov.1 action_flags = false) options
                ∨ k ∉ ACTIONS).
  { destruct Hact as [Hact | ?]; [left | by right].
    by apply Forall_cons_1 in Hact as [_ ?]. }
  pose proof (handle_option_program_opts opt val st k Hk Hhd) as Hstep.
  simpl. destruct (handle_option w opt val st) as [st' | st' | e st'];
    cbn [flow_state] in *; [|done..].
  rewrite (IH st' Htl). exact Hstep.
Qed.

Lemma process_options_trace options st :
  ∃ evs, trace (flow_state (process_options w options st)) = trace st ++ evs
         ∧ Forall (λ ev, ¬ beyond_loop ev) evs.
Proof.
  revert st. induction options as [|[opt val] options IH]; intros st.
  - exists []. by rewrite app_nil_r.
  - destruct (handle_option_trace opt val st) as (evs & Hevs & Hq).
    simpl. destruct (handle_option w opt val st) as [st' | st' | e st'];
      cbn [flow_state] in *; [|by eauto..].
    destruct (IH st') as (evs' & Hevs' & Hq').
    exists (evs ++ evs'). rewrite Hevs', Hevs, <- app_assoc.
    split; [done|]. by apply Forall_app.
Qed.

(** The loop returns only at a help flag. *)
Lemma process_options_return options st st' :
  process_options w options st = Return_ st' →
  Exists (λ ov, is_in ov.1 help_flags = true) options.
Proof.
  revert st. induction options as [|[opt val] options IH]; intros st;
    [done|].
  simpl. destruct (handle_option w opt val st) as [st1 | st1 | e st1] eqn:E.
  - intros H. apply Exists_cons_tl. by eapply IH.
  - intros _. apply Exists_cons_hd. by eapply handle_option_return.
  - done.
Qed.

End OptionLoop.

(** ** The whole of [main] *)

Section Main.

Variable w : world.

Lemma resolve_arguments_trace arguments st :
  ∃ evs, trace (flow_state (resolve_arguments w arguments st))
         = trace st ++ evs
         ∧ Forall (λ ev, ¬ is_Execute ev) evs.
Proof.
  assert (H0 : ∃ evs, trace st = trace st ++ evs
                      ∧ Forall (λ ev, ¬ is_Execute ev) evs).
  { exists []. by rewrite app_nil_r. }
  assert (H1 : ∀ ev, ¬ is_Execute ev →
               ∃ evs, trace st ++ [ev] = trace st ++ evs
                      ∧ Forall (λ ev, ¬ is_Execute ev) evs).
  { intros ev Hev. exists [ev]. split; [done|]. by constructor. }
  unfold resolve_arguments.
  destruct arguments as [|a0 [|a1 [|a2 rest]]]; cbn.
  - destruct (no_module_path w); [destruct (usage w module_doc)|]; cbn;
      [exact H0 | apply H1; simpl; tauto | exact H0].
  - apply H1. simpl. tauto.
  - apply H1. simpl. tauto.
  - exact H0.
Qed.

Lemma beyond_loop_Execute ev : is_Execute ev → beyond_loop ev.
Proof. by destruct ev. Qed.

(** The first [try] block does not start the engine. *)
Lemma parse_trace :
  ∃ evs, trace (flow_state (parse w initial_state)) = InstallLogging :: evs
         ∧ Forall (λ ev, ¬ is_Execute ev) evs.
Proof.
  unfold parse. destruct (gnu_getopt w) as [e | [options arguments]].
  - by exists [].
  - destruct (process_options_trace w options initial_state)
      as (evs & Hevs & Hq).
    assert (Hq' : Forall (λ ev, ¬ is_Execute ev) evs).
    { eapply Forall_impl; [exact Hq|]. intros ev Hev Hex.
      by apply Hev, beyond_loop_Execute. }
    destruct (process_options w options initial_state)
      as [st | st | e st]; cbn [flow_state] in *;
      [|exists evs; by rewrite Hevs..].
    destruct (resolve_arguments_trace arguments st) as (evs' & Hevs' & Hq'').
    exists (evs ++ evs'). rewrite Hevs', Hevs.
    split; [done|]. by apply Forall_app.
Qed.

(** A first [try] block that does not run to its end keeps the engine
    unused. *)
Lemma main_not_executed :
  (∀ st, parse w initial_state ≠ Continue st) →
  ∀ po, Execute po ∉ (main w).1.
Proof.
  intros Hstop po. destruct parse_trace as (evs & Hevs & Hq).
  assert (Hnot : Execute po ∉ InstallLogging :: evs).
  { rewrite not_elem_of_cons. split; [done|].
    intros Hin. rewrite Forall_forall in Hq. by apply (Hq _ Hin). }
  unfold main. destruct (parse w initial_state) as [st | st | e st];
    cbn [flow_state fst] in *.
  - by destruct (Hstop st).
  - by rewrite Hevs.
  - rewrite Hevs. rewrite elem_of_app, list_elem_of_singleton.
    intros [? | ?]; [done | discriminate].
Qed.

Lemma main_continue st :
  parse w initial_state = Continue st → main w = run w st.
Proof. unfold main. by intros ->. Qed.

Lemma run_raised st ctx e :
  create_context w context_opts = inr ctx →
  execute w (<["source_context" := ctx]> (program_opts st)) = Some e →
  run w st =
    triage w e
      (trace st ++ [Execute (<["source_context" := ctx]> (program_opts st))]).
Proof. unfold run. by intros -> ->. Qed.

End Main.

(** C3. The engine raises a "backup disk missing" error.  Without a
    terminal attached the error is logged at info level and the process
    exits with code 0; with a terminal attached it is logged at error level
    and the process exits with code 1. *)
Theorem missing_disk_by_terminal (w : world) (st : state) (ctx : value)
    (e : exn) :
  parse w initial_state = Continue st →
  create_context w context_opts = inr ctx →
  execute w (<["source_context" := ctx]> (program_opts st)) = Some e →
  exn_class_of e = MissingBackupDiskError →
  let started :=
    trace st ++ [Execute (<["source_context" := ctx]> (program_opts st))] in
  (connected_to_terminal w = false →
   main w = (started ++ [Log INFO "Skipping backup: %s" (ExnArg e) None],
             SysExit 0))
  ∧ (connected_to_terminal w = true →
     main w = (started ++ [Log ERROR "Aborting due to error: %s" (ExnArg e) None],
               SysExit 1)).
Proof.
  intros Hparse Hctx Hexec Hcls started.
  rewrite (main_continue w st Hparse), (run_raised w st ctx e Hctx Hexec).
  unfold triage, is_RsyncSystemBackupError, is_MissingBackupDiskError.
  rewrite Hcls. split; intros ->; reflexivity.
Qed.

Lemma missing_disk_by_terminal_witness :
  (main (Sample.world_of [("-q", "")] ["/mnt/backups"] None
                         (Some Sample.disk_missing) false)).2
  = SysExit 0.
Proof.
  pose proof (missing_disk_by_terminal
                (Sample.world_of [("-q", "")] ["/mnt/backups"] None
                                 (Some Sample.disk_missing) false)
                _ _ _ eq_refl eq_refl eq_refl eq_refl) as [H _].
  exact (f_equal snd (H eq_refl)).
Defined.

(** C6, as the code has it.  A failure of the engine that is a recognized
    domain error, other than a "backup disk missing" error raised while no
    terminal is attached, is logged at error level by its message alone,
    without a traceback, and the process exits with code 1.  A failure that
    is not a recognized domain error is logged at error level with its
    traceback, and the process exits with code 1. *)
Theorem engine_failure_triage (w : world) (st : state) (ctx : value)
    (e : exn) :
  parse w initial_state = Continue st →
  create_context w context_opts = inr ctx →
  execute w (<["source_context" := ctx]> (program_opts st)) = Some e →
  let started :=
    trace st ++ [Execute (<["source_context" := ctx]> (program_opts st))] in
  (is_RsyncSystemBackupError e = true →
   is_MissingBackupDiskError e = false ∨ connected_to_terminal w = true →
   main w = (started ++ [Log ERROR "Aborting due to error: %s" (ExnArg e) None],
             SysExit 1))
  ∧ (is_RsyncSystemBackupError e = false →
     main w = (started ++ [Log ERROR "Aborting due to unhandled exception!"
                               NoArg (Some e)],
               SysExit 1)).
Proof.
  intros Hparse Hctx Hexec started.
  rewrite (main_continue w st Hparse), (run_raised w st ctx e Hctx Hexec).
  unfold triage. split.
  - intros -> [-> | ->]; [done|]. by rewrite andb_false_r.
  - by intros ->.
Qed.

Lemma engine_failure_triage_witness :
  (main (Sample.world_of [] ["/mnt/backups"] None
           (Some (Exn (OtherException "RuntimeError") (Text "boom"))) false)).2
  = SysExit 1.
Proof.
  pose proof (engine_failure_triage
                (Sample.world_of [] ["/mnt/backups"] None
                   (Some (Exn (OtherException "RuntimeError") (Text "boom")))
                   false)
                _ _ _ eq_refl eq_refl eq_refl) as [_ H].
  exact (f_equal snd (H eq_refl)).
Defined.

(** C6 as it is worded fails: a "backup disk missing" error is a recognized
    domain error, and without a terminal it is logged at info level and
    the process exits with code 0. *)
Lemma domain_error_exit_0 :
  let w := Sample.world_of [] ["/mnt/backups"] None
                           (Some Sample.disk_missing) false in
  execute w (<["source_context" := VContext ∅]>
               (<["destination" :=
                    VObject Destination {["expression" := VStr "/mnt/backups"]}]> ∅))
  = Some Sample.disk_missing
  ∧ is_RsyncSystemBackupError Sample.disk_missing = true
  ∧ last (main w).1
    = Some (Log INFO "Skipping backup: %s" (ExnArg Sample.disk_missing) None)
  ∧ (main w).2 = SysExit 0
  ∧ (main w).2 ≠ SysExit 1.
Proof. repeat split; try reflexivity. discriminate. Qed.

(** ** Positional arguments *)

Lemma resolve_arguments_arity (w : world) (arguments : list string)
    (st : state) :
  (3 ≤ length arguments)%nat →
  resolve_arguments w arguments st = Raise (arity_error (length arguments)) st.
Proof.
  intros Hlen. unfold resolve_arguments.
  destruct (Nat.ltb_spec 2 (length arguments)); [done | lia].
Qed.

(** C4, as the code has it.  With three or more positional arguments the
    engine is never started.  When the option loop runs to its end, the
    arity error is raised, reported to the user, and the process exits
    with code 1; and whenever no help flag is among the options, the
    process exits with code 1. *)
Theorem arity_error_after_options (w : world)
    (options : list (string * string)) (arguments : list string) :
  gnu_getopt w = inr (options, arguments) →
  (3 ≤ length arguments)%nat →
  (∀ po, Execute po ∉ (main w).1)
  ∧ (∀ st, process_options w options initial_state = Continue st →
           main w = (trace st ++ [Warning "Error: %s"
                                    (arity_error (length arguments))],
                     SysExit 1))
  ∧ (Forall (λ ov, is_in ov.1 help_flags = false) options →
     (main w).2 = SysExit 1).
Proof.
  intros Hg Hlen.
  assert (Hparse : parse w initial_state =
            match process_options w options initial_state with
            | Continue st => Raise (arity_error (length arguments)) st
            | stop => stop
            end).
  { unfold parse. rewrite Hg.
    destruct (process_options w options initial_state); [|done..].
    by apply resolve_arguments_arity. }
  split; [|split].
  - apply main_not_executed. intros st. rewrite Hparse.
    by destruct (process_options w options initial_state).
  - intros st Hloop. unfold main. by rewrite Hparse, Hloop.
  - intros Hnohelp. unfold main. rewrite Hparse.
    destruct (process_options w options initial_state)
      as [st | st | e st] eqn:Hloop; [done| |done].
    apply process_options_return in Hloop.
    apply Exists_exists in Hloop as (ov & Hin & Hhelp).
    rewrite Forall_forall in Hnohelp. specialize (Hnohelp ov Hin).
    congruence.
Qed.

Lemma arity_error_after_options_witness :
  (main (Sample.world_of [("-b", ""); ("--mount", "/mnt/backups")]
                         ["/"; "/mnt/backups"; "stray"] None None true)).2
  = SysExit 1.
Proof.
  refine (proj2 (proj2 (arity_error_after_options
            (Sample.world_of [("-b", ""); ("--mount", "/mnt/backups")]
                             ["/"; "/mnt/backups"; "stray"] None None true)
            _ _ eq_refl _)) _).
  - simpl. lia.
  - repeat constructor.
Defined.

(** C4 as it is worded fails: with a help flag ahead of three positional
    arguments, and no terminal attached, the usage text is shown and [main]
    returns, with no arity error and the exit status 0. *)
Lemma help_hides_arity_error :
  let w := Sample.world_of [("-h", "")] ["/"; "/mnt/backups"; "stray"]
                           None None false in
  gnu_getopt w = inr ([("-h", "")], ["/"; "/mnt/backups"; "stray"])
  ∧ length ["/"; "/mnt/backups"; "stray"] = 3
  ∧ main w = ([InstallLogging; Usage], Returned)
  ∧ exit_status (main w).2 = 0%Z
  ∧ (main w).2 ≠ SysExit 1.
Proof. repeat split; try reflexivity. discriminate. Qed.

(** C5, where the code breaks it.  No positional argument, no
    [RSYNC_MODULE_PATH] in the environment, a terminal attached: the usage
    text is asked for, as the comment in the source says, but the module
    has no docstring, [usage] raises [TypeError] for [None], and [main]
    reports the error and exits with code 1 where a clean return is
    meant. *)
Theorem no_destination_on_terminal :
  let w := Sample.world_of [] [] None None true in
  gnu_getopt w = inr ([], [])
  ∧ RSYNC_MODULE_PATH w = None
  ∧ connected_to_terminal w = true
  ∧ main w = ([InstallLogging;
               Warning "Error: %s" (Exn TypeError UsageOfNone)],
              SysExit 1)
  ∧ exit_status (main w).2 = 1%Z.
Proof. repeat split; reflexivity. Qed.

(** X19. After an option loop that ran to its end: two positional arguments
    give [source] and the destination expression, in this order; one gives
    the destination expression and no [source]; none, without
    [RSYNC_MODULE_PATH] in the environment, asks for the usage text, which
    without a terminal is shown before [main] returns (exit status 0) and
    with a terminal fails with a [TypeError] that is reported (exit code
    1); and [main] goes on without positional argument only when the
    variable is set, then without a destination. *)
Theorem positional_arguments (w : world) (options : list (string * string))
    (arguments : list string) (st : state) :
  gnu_getopt w = inr (options, arguments) →
  process_options w options initial_state = Continue st →
  (∀ a b, arguments = [a; b] →
     ∃ st' kw, parse w initial_state = Continue st'
       ∧ program_opts st' !! "source" = Some (VStr a)
       ∧ program_opts st' !! "destination" = Some (VObject Destination kw)
       ∧ kw !! "expression" = Some (VStr b))
  ∧ (∀ a, arguments = [a] →
     ∃ st' kw, parse w initial_state = Continue st'
       ∧ program_opts st' !! "source" = None
       ∧ program_opts st' !! "destination" = Some (VObject Destination kw)
       ∧ kw !! "expression" = Some (VStr a))
  ∧ (arguments = [] →
     (RSYNC_MODULE_PATH w = None → connected_to_terminal w = false →
      main w = (trace st ++ [Usage], Returned)
      ∧ exit_status (main w).2 = 0%Z)
     ∧ (RSYNC_MODULE_PATH w = None → connected_to_terminal w = true →
        main w = (trace st ++ [Warning "Error: %s"
                                 (Exn TypeError UsageOfNone)],
                  SysExit 1))
     ∧ (∀ st', parse w initial_state = Continue st' →
          (∃ p, RSYNC_MODULE_PATH w = Some p ∧ p ≠ "")
          ∧ st' = st
          ∧ program_opts st' !! "source" = None
          ∧ program_opts st' !! "destination" = None)
     ∧ (∀ p, RSYNC_MODULE_PATH w = Some p → p ≠ "" →
          parse w initial_state = Continue st)).
Proof.
  intros Hg Hloop.
  assert (Hfree : ∀ k, k ∉ scalar_keys → k ∉ ACTIONS →
                       program_opts st !! k = None).
  { intros k Hk Ha.
    pose proof (process_options_program_opts w options initial_state k Hk
                  (or_intror Ha)) as H.
    by rewrite Hloop in H. }
  assert (Hsrc : program_opts st !! "source" = None).
  { apply Hfree; unfold scalar_keys, ACTIONS;
      rewrite !not_elem_of_cons; repeat split; try done; apply not_elem_of_nil. }
  assert (Hdst : program_opts st !! "destination" = None).
  { apply Hfree; unfold scalar_keys, ACTIONS;
      rewrite !not_elem_of_cons; repeat split; try done; apply not_elem_of_nil. }
  assert (Hparse : parse w initial_state = resolve_arguments w arguments st).
  { unfold parse. by rewrite Hg, Hloop. }
  split; [|split].
  - intros a b ->. rewrite Hparse. cbn.
    eexists _, _. split; [reflexivity|]. cbn.
    split; [|split].
    + rewrite lookup_insert_ne by done. apply lookup_insert_eq.
    + apply lookup_insert_eq.
    + apply lookup_insert_eq.
  - intros a ->. rewrite Hparse. cbn.
    eexists _, _. split; [reflexivity|]. cbn.
    split; [|split].
    + by rewrite lookup_insert_ne.
    + apply lookup_insert_eq.
    + apply lookup_insert_eq.
  - intros ->. unfold main. rewrite Hparse.
    unfold resolve_arguments, no_module_path, usage, module_doc. cbn.
    split; [|split; [|split]].
    + by intros -> ->.
    + by intros -> ->.
    + intros st'. destruct (RSYNC_MODULE_PATH w) as [[|c p]|]; cbn;
        try (destruct (connected_to_terminal w); discriminate).
      intros [= <-]. split; [by eexists|done].
    + intros p -> Hp. by destruct p.
Qed.

Lemma positional_arguments_witness :
  ∃ st' kw,
    parse (Sample.world_of [("-n", "")] ["/home"; "/mnt/backups"] None None true)
          initial_state = Continue st'
    ∧ program_opts st' !! "source" = Some (VStr "/home")
    ∧ program_opts st' !! "destination" = Some (VObject Destination kw)
    ∧ kw !! "expression" = Some (VStr "/mnt/backups").
Proof.
  exact (proj1 (positional_arguments
                  (Sample.world_of [("-n", "")] ["/home"; "/mnt/backups"]
                                   None None true)
                  _ _ _ eq_refl eq_refl) "/home" "/mnt/backups" eq_refl).
Defined.

(** ** Options that fail *)

Section FailingOption.

Variable w : world.

(** An option that raises, met after the options [pre], ends the first
    [try] block: at this option when [pre] runs to its end, before it
    otherwise. *)
Lemma parse_failing_option pre opt val post arguments e :
  gnu_getopt w = inr (pre ++ (opt, val) :: post, arguments) →
  (∀ st, handle_option w opt val st = Raise e st) →
  parse w initial_state =
    match process_options w pre initial_state with
    | Continue st => Raise e st
    | stop => stop
    end.
Proof.
  intros Hg Hraise. unfold parse. rewrite Hg, process_options_app.
  destruct (process_options w pre initial_state) as [st | st | e' st];
    [|done..].
  simpl. by rewrite Hraise.
Qed.

Lemma parse_failing_option_stops pre opt val post arguments e :
  gnu_getopt w = inr (pre ++ (opt, val) :: post, arguments) →
  (∀ st, handle_option w opt val st = Raise e st) →
  ∀ st, parse w initial_state ≠ Continue st.
Proof.
  intros Hg Hraise st.
  rewrite (parse_failing_option _ _ _ _ _ _ Hg Hraise).
  by destruct (process_options w pre initial_state).
Qed.

Lemma main_failing_option pre opt val post arguments e st :
  gnu_getopt w = inr (pre ++ (opt, val) :: post, arguments) →
  (∀ st, handle_option w opt val st = Raise e st) →
  process_options w pre initial_state = Continue st →
  main w = (trace st ++ [Warning "Error: %s" e], SysExit 1).
Proof.
  intros Hg Hraise Hpre. unfold main.
  by rewrite (parse_failing_option _ _ _ _ _ _ Hg Hraise), Hpre.
Qed.

(** What [main] has done when the loop stops inside [pre] or at the
    failing option: only events of the loop. *)
Lemma main_failing_option_trace pre opt val post arguments e :
  gnu_getopt w = inr (pre ++ (opt, val) :: post, arguments) →
  (∀ st, handle_option w opt val st = Raise e st) →
  ∀ ev, ev ∈ (main w).1 → ¬ beyond_loop ev.
Proof.
  intros Hg Hraise ev. unfold main.
  rewrite (parse_failing_option _ _ _ _ _ _ Hg Hraise).
  destruct (process_options_trace w pre initial_state) as (evs & Hevs & Hq).
  rewrite Forall_forall in Hq.
  assert (Hloop : ∀ st, trace st = trace initial_state ++ evs →
                        ev ∈ trace st → ¬ beyond_loop ev).
  { intros st -> Hin. cbn in Hin. apply elem_of_cons in Hin as [-> | Hin].
    - simpl. tauto.
    - by apply Hq. }
  destruct (process_options w pre initial_state) as [st | st | e' st];
    cbn [flow_state fst] in *.
  - rewrite elem_of_app, list_elem_of_singleton.
    intros [Hin | ->]; [by apply (Hloop st) | simpl; tauto].
  - by apply Hloop.
  - rewrite elem_of_app, list_elem_of_singleton.
    intros [Hin | ->]; [by apply (Hloop st) | simpl; tauto].
Qed.

End FailingOption.

(** C7, as the code has it.  An invalid ionice class among the options: the
    first [try] block never runs to its end, no [Destination] is built and
    the engine is never started.  When the options ahead of it run to
    their end, the error of the validation is raised at the ionice option,
    reported, and the process exits with code 1.  When no action flag
    stands ahead of it, no action key is in the options map when the loop
    stops. *)
Theorem invalid_ionice_fails_fast (w : world)
    (pre post : list (string * string)) (opt val : string)
    (arguments : list string) (e : exn) :
  gnu_getopt w = inr (pre ++ (opt, val) :: post, arguments) →
  is_in opt ["-i"; "--ionice"] = true →
  validate_ionice_class w (PyStr.strip (PyStr.lower val)) = Some e →
  (∀ st, parse w initial_state ≠ Continue st)
  ∧ (∀ kw, Construct Destination kw ∉ (main w).1)
  ∧ (∀ po, Execute po ∉ (main w).1)
  ∧ (∀ st, process_options w pre initial_state = Continue st →
           parse w initial_state = Raise e st
           ∧ main w = (trace st ++ [Warning "Error: %s" e], SysExit 1))
  ∧ (Forall (λ ov, is_in ov.1 action_flags = false) pre →
     ∀ k, k ∈ ACTIONS →
          program_opts (flow_state (parse w initial_state)) !! k = None).
Proof.
  intros Hg Hopt Hbad.
  assert (Hraise : ∀ st, handle_option w opt val st = Raise e st).
  { intros st. by rewrite (handle_option_ionice w opt val st Hopt), Hbad. }
  split; [|split; [|split; [|split]]].
  - by eapply parse_failing_option_stops.
  - intros kw Hin.
    by apply (main_failing_option_trace w _ _ _ _ _ _ Hg Hraise) in Hin.
  - intros po Hin.
    by apply (main_failing_option_trace w _ _ _ _ _ _ Hg Hraise) in Hin.
  - intros st Hpre. split.
    + by rewrite (parse_failing_option w _ _ _ _ _ _ Hg Hraise), Hpre.
    + by eapply main_failing_option.
  - intros Hpre k Hk.
    rewrite (parse_failing_option w _ _ _ _ _ _ Hg Hraise).
    assert (Hscalar : k ∉ scalar_keys).
    { apply elem_of_ACTIONS in Hk. unfold scalar_keys.
      rewrite !not_elem_of_cons.
      destruct Hk as [-> | [-> | ->]]; repeat split; try done;
        apply not_elem_of_nil. }
    pose proof (process_options_program_opts w pre initial_state k Hscalar
                  (or_introl Hpre)) as Hframe.
    destruct (process_options w pre initial_state) as [st | st | e' st];
      cbn [flow_state] in *; by rewrite Hframe.
Qed.

Lemma invalid_ionice_fails_fast_witness :
  main (Sample.world_of [("-n", ""); ("--ionice", "Invalid"); ("-b", "")]
                        ["/mnt/backups"] None None true)
  = ([InstallLogging;
      Log INFO "Performing a dry run (because of %s option) .." (StrArg "-n") None;
      Warning "Error: %s" (Exn ValueError (Text "Invalid I/O scheduling class!"))],
     SysExit 1).
Proof.
  exact (proj2 (proj1 (proj2 (proj2 (proj2
           (invalid_ionice_fails_fast
              (Sample.world_of [("-n", ""); ("--ionice", "Invalid"); ("-b", "")]
                               ["/mnt/backups"] None None true)
              [("-n", "")] [("-b", "")] "--ionice" "Invalid" ["/mnt/backups"]
              _ eq_refl eq_refl eq_refl)))) _ eq_refl)).
Defined.

(** C7 as it is worded fails: an action flag ahead of the invalid ionice
    class is resolved first, and its keys are in the options map when the
    validation fails. *)
Lemma action_resolved_before_ionice :
  let w := Sample.world_of [("-b", ""); ("--ionice", "invalid")]
                           ["/mnt/backups"] None None true in
  Sample.validate (PyStr.strip (PyStr.lower "invalid")) ≠ None
  ∧ ∃ e st, parse w initial_state = Raise e st
            ∧ program_opts st !! "backup_enabled" = Some (VBool true)
            ∧ program_opts st !! "snapshot_enabled" = Some (VBool false)
            ∧ program_opts st !! "rotate_enabled" = Some (VBool false).
Proof.
  split; [discriminate|].
  eexists _, _. split; [reflexivity|]. repeat split; reflexivity.
Qed.

(** ** The port of a tunnel *)

(** [tunnel_opts] by the port segment alone. *)
Lemma tunnel_opts_by_port (w : world) (val : string) :
  ∃ common : gmap string value,
    common !! "port" = None
    ∧ tunnel_opts w val =
        if PyStr.truthy (port_segment val) then
          match PyStr.int (port_segment val) with
          | Some n => inr (<["port" := VInt n]> common)
          | None => inl (Exn ValueError (InvalidLiteral (port_segment val)))
          end
        else inr common.
Proof.
  unfold tunnel_opts, port_segment.
  destruct (PyStr.rpartition "@" val) as [[u m] r]. cbn [snd].
  destruct (PyStr.partition ":" r) as [[a m'] p]. cbn [snd].
  eexists. split; [|reflexivity]. by simplify_map_eq.
Qed.

(** C8. A [--tunnel] value whose port segment is neither empty nor accepted
    by [int]: the [ValueError] is raised before any [SecureTunnel] is built
    (the state is the one the option met); a command line with such an
    option never starts the engine; and when the option is reached in
    [main], the error is reported and the process exits with code 1. *)
Theorem tunnel_port_not_numeric (w : world) (val : string) :
  port_segment val ≠ "" →
  PyStr.int (port_segment val) = None →
  let e := Exn ValueError (InvalidLiteral (port_segment val)) in
  tunnel_opts w val = inl e
  ∧ (∀ opt st, is_in opt ["-t"; "--tunnel"] = true →
               handle_option w opt val st = Raise e st)
  ∧ (∀ pre opt post arguments,
       gnu_getopt w = inr (pre ++ (opt, val) :: post, arguments) →
       is_in opt ["-t"; "--tunnel"] = true →
       (∀ po, Execute po ∉ (main w).1)
       ∧ (∀ st, process_options w pre initial_state = Continue st →
                main w = (trace st ++ [Warning "Error: %s" e], SysExit 1)
                ∧ exit_status (main w).2 ≠ 0%Z)).
Proof.
  intros Hne Hint e.
  assert (Htun : tunnel_opts w val = inl e).
  { destruct (tunnel_opts_by_port w val) as (common & _ & ->).
    rewrite Hint. destruct (port_segment val); [done|reflexivity]. }
  assert (Hraise : ∀ opt, is_in opt ["-t"; "--tunnel"] = true →
                          ∀ st, handle_option w opt val st = Raise e st).
  { intros opt Hopt st. by rewrite (handle_option_tunnel w opt val st Hopt), Htun. }
  split; [done|]. split; [intros opt st Hopt; by apply Hraise|].
  intros pre opt post arguments Hg Hopt. split.
  - apply main_not_executed.
    by eapply parse_failing_option_stops; [exact Hg | apply Hraise].
  - intros st Hpre.
    pose proof (main_failing_option w _ _ _ _ _ _ _ Hg (Hraise opt Hopt) Hpre)
      as Hmain.
    split; [done|]. by rewrite Hmain.
Qed.

Lemma tunnel_port_not_numeric_witness :
  main (Sample.world_of [("-t", "alice@backup-host:ssh")] ["/mnt/backups"]
                        None None true)
  = ([InstallLogging;
      Warning "Error: %s" (Exn ValueError (InvalidLiteral "ssh"))],
     SysExit 1).
Proof.
  refine (proj1 (proj2 (proj2 (proj2 (tunnel_port_not_numeric
            (Sample.world_of [("-t", "alice@backup-host:ssh")] ["/mnt/backups"]
                             None None true)
            "alice@backup-host:ssh" _ eq_refl))
            [] "-t" [] ["/mnt/backups"] eq_refl eq_refl) initial_state eq_refl)).
  discriminate.
Defined.

(** C10. A [--tunnel] value whose port segment is empty, as in
    ["backup-host:"]: no error; the [SecureTunnel] is built from keyword
    arguments without [port]. *)
Theorem tunnel_port_empty (w : world) (val : string) :
  port_segment val = "" →
  ∃ kw, tunnel_opts w val = inr kw
        ∧ kw !! "port" = None
        ∧ ∀ opt st, is_in opt ["-t"; "--tunnel"] = true →
            handle_option w opt val st =
              Continue (with_dest_opts
                          (insert "ssh_tunnel" (VObject SecureTunnel kw))
                          (emit (Construct SecureTunnel kw) st)).
Proof.
  intros Hport. destruct (tunnel_opts_by_port w val) as (common & Hnone & Htun).
  rewrite Hport in Htun. cbn in Htun.
  exists common. split; [done|]. split; [done|].
  intros opt st Hopt. by rewrite (handle_option_tunnel w opt val st Hopt), Htun.
Qed.

Lemma tunnel_port_empty_witness :
  port_segment "backup-host:" = ""
  ∧ ∃ kw, tunnel_opts (Sample.world_of [] [] None None true) "backup-host:"
          = inr kw
          ∧ kw !! "ssh_alias" = Some (VStr "backup-host")
          ∧ kw !! "port" = None.
Proof.
  split; [reflexivity|].
  destruct (tunnel_port_empty (Sample.world_of [] [] None None true)
              "backup-host:" eq_refl) as (kw & Hkw & Hport & _).
  exists kw. split; [exact Hkw|]. split; [|exact Hport].
  injection Hkw as <-. reflexivity.
Defined.

Lemma tunnel_opts_split_witness :
  ∃ kw, tunnel_opts (Sample.world_of [] [] None None true)
                    "alice@backup-host:2222" = inr kw
        ∧ kw !! "ssh_user" = Some (VStr "alice")
        ∧ kw !! "ssh_alias" = Some (VStr "backup-host")
        ∧ kw !! "port" = Some (VInt 2222)
        ∧ kw !! "remote_port" = Some (VInt 873).
Proof.
  exact (proj1 (proj2 (proj2
           (tunnel_opts_split (Sample.world_of [] [] None None true))))).
Defined.

(** ** Literals that [int] rejects *)

Section Literals.

Variable c : ascii.

Lemma contains_lstrip_by space s :
  space c = false →
  PyStr.contains c (PyStr.lstrip_by space s) = PyStr.contains c s.
Proof.
  intros Hc. induction s as [|c0 s IH]; [done|]. simpl.
  destruct (space c0) eqn:Hc0; [|done].
  rewrite IH. destruct (Ascii.eqb_spec c0 c) as [-> | _]; [congruence | done].
Qed.

Lemma contains_rstrip_by space s :
  space c = false →
  PyStr.contains c (PyStr.rstrip_by space s) = PyStr.contains c s.
Proof.
  intros Hc. induction s as [|c0 s IH]; [done|]. simpl.
  destruct (PyStr.rstrip_by space s) as [|c1 r] eqn:Hr.
  - simpl in IH. rewrite <- IH.
    destruct (space c0) eqn:Hc0; simpl.
    + destruct (Ascii.eqb_spec c0 c) as [-> | _]; [congruence | done].
    + done.
  - simpl. by rewrite <- IH.
Qed.

Lemma digits_stranger s acc after_digit :
  PyStr.isdigit c = false → c ≠ "_"%char →
  PyStr.contains c s = true →
  PyStr.digits acc after_digit s = None.
Proof.
  intros Hd Hu. revert acc after_digit.
  induction s as [|c0 s IH]; intros acc after_digit; [done|]. simpl.
  destruct (Ascii.eqb_spec c0 c) as [-> | Hne]; simpl.
  - intros _. rewrite Hd.
    by destruct (Ascii.eqb_spec c "_"%char).
  - intros Hin. destruct (PyStr.isdigit c0); [by apply IH|].
    destruct (Ascii.eqb c0 "_"); [|done].
    destruct after_digit; [by apply IH | done].
Qed.

Lemma literal_stranger s :
  PyStr.isdigit c = false → c ≠ "_"%char →
  PyStr.contains c s = true →
  PyStr.literal s = None.
Proof.
  intros Hd Hu Hin. unfold PyStr.literal.
  destruct (_ <? _)%nat; [done|]. by apply digits_stranger.
Qed.

(** A literal with a character that is no digit, no white space, no sign
    and no underscore is no number. *)
Lemma int_stranger s :
  PyStr.isdigit c = false → PyStr.isspace_int c = false →
  c ≠ "_"%char → c ≠ "+"%char → c ≠ "-"%char →
  PyStr.contains c s = true →
  PyStr.int s = None.
Proof.
  intros Hd Hs Hu Hplus Hminus Hin. unfold PyStr.int, PyStr.strip_by.
  assert (Hin' : PyStr.contains c
                   (PyStr.rstrip_by PyStr.isspace_int
                      (PyStr.lstrip_by PyStr.isspace_int s)) = true).
  { by rewrite contains_rstrip_by, contains_lstrip_by. }
  destruct (PyStr.rstrip_by _ _) as [|c0 r]; [done|].
  assert (Htail : c0 ≠ c → PyStr.contains c r = true).
  { intros Hne. simpl in Hin'.
    by destruct (Ascii.eqb_spec c0 c). }
  assert (Hall : PyStr.literal (String c0 r) = None).
  { by apply literal_stranger. }
  destruct (Ascii.eqb_spec c0 "+"%char) as [-> | Hp].
  { apply literal_stranger; auto. }
  destruct (Ascii.eqb_spec c0 "-"%char) as [-> | Hm].
  { rewrite literal_stranger; auto. }
  destruct c0 as [[] [] [] [] [] [] [] []]; try exact Hall; congruence.
Qed.

End Literals.

(** ** The action flags in the loop of [main] *)

Lemma process_options_action_flags (w : world)
    (options : list (string * string)) (st : state) :
  Forall (λ ov, is_in ov.1 action_flags = true) options →
  process_options w options st =
    Continue (with_program_opts
                (λ bag, foldl enable_explicit_action bag
                          (map (λ ov, explicit_action_of ov.1) options))
                st).
Proof.
  revert st. induction options as [|[opt val] options IH]; intros st Hall.
  - by destruct st.
  - apply Forall_cons_1 in Hall as [Hopt Hall]. cbn [fst] in Hopt.
    apply (is_in_spec opt) in Hopt. unfold action_flags in Hopt.
    rewrite !elem_of_cons, elem_of_nil in Hopt. cbn [process_options].
    destruct Hopt as [-> | [-> | [-> | [-> | [-> | [-> | []]]]]]];
      cbn [handle_option is_in existsb String.eqb Ascii.eqb Bool.eqb orb];
      by rewrite (IH _ Hall).
Qed.


(** * Further properties of the code *)

(** ** The action resolver over a whole command line *)

(** Every key after a sequence of calls that is not empty. *)
Lemma lookup_foldl_enable_explicit_action (flags : list string)
    (bag : gmap string value) (k : string) :
  flags ≠ [] →
  foldl enable_explicit_action bag flags !! k =
    if decide (k ∈ flags) then Some (VBool true)
    else if decide (k ∈ ACTIONS)
         then Some (default (VBool false) (bag !! k))
         else bag !! k.
Proof.
  revert bag. induction flags as [|a flags IH]; intros bag Hne; [done|].
  cbn [foldl]. destruct flags as [|b flags].
  - cbn [foldl]. rewrite lookup_enable_explicit_action.
    destruct (decide (k = a)) as [-> | Hka].
    + rewrite decide_True; [done | apply list_elem_of_here].
    + rewrite (decide_False (P := k ∈ [a])); [done|].
      by rewrite list_elem_of_singleton.
  - rewrite IH by done. rewrite lookup_enable_explicit_action.
    destruct (decide (k = a)) as [-> | Hka].
    + rewrite (decide_True (P := a ∈ a :: b :: flags))
        by apply list_elem_of_here.
      repeat case_decide; done.
    + destruct (decide (k ∈ b :: flags)) as [Hin | Hnin].
      * rewrite (decide_True (P := k ∈ a :: b :: flags)); [done|].
        by apply list_elem_of_further.
      * rewrite (decide_False (P := k ∈ a :: b :: flags)).
        2:{ rewrite elem_of_cons. tauto. }
        by case_decide.
Qed.

(** X1. What a sequence of explicit actions leaves in the bag depends on
    the set of the actions alone, not on their order or on repetitions. *)
Theorem explicit_actions_as_set (bag : gmap string value)
    (flags flags' : list string) :
  (∀ a, a ∈ flags ↔ a ∈ flags') →
  foldl enable_explicit_action bag flags
  = foldl enable_explicit_action bag flags'.
Proof.
  intros Hset. destruct flags as [|a flags].
  - destruct flags' as [|a' flags']; [done|].
    exfalso. apply (not_elem_of_nil a'), Hset, list_elem_of_here.
  - destruct flags' as [|a' flags'].
    { exfalso. apply (not_elem_of_nil a), Hset, list_elem_of_here. }
    apply map_eq. intros k.
    rewrite !lookup_foldl_enable_explicit_action by done.
    destruct (decide (k ∈ a :: flags)) as [Hin | Hnin].
    + rewrite (decide_True (P := k ∈ a' :: flags')); [done | by apply Hset].
    + rewrite (decide_False (P := k ∈ a' :: flags')); [done|].
      intros Hin. by apply Hnin, Hset.
Qed.

Lemma explicit_actions_as_set_witness :
  foldl enable_explicit_action ∅
        ["backup_enabled"; "rotate_enabled"; "backup_enabled"]
  = foldl enable_explicit_action ∅ ["rotate_enabled"; "backup_enabled"].
Proof.
  apply explicit_actions_as_set. intros a.
  rewrite !elem_of_cons, !elem_of_nil. tauto.
Defined.

(** ** Which option writes which key *)

(** Case analysis over the [if]/[elif] chain of the loop body. *)
Ltac loop_cases :=
  unfold handle_option;
  repeat match goal with
    | |- context [if is_in ?o ?l then _ else _] =>
        let E := fresh "E" in destruct (is_in o l) eqn:E
    | |- context [if String.eqb ?o ?l then _ else _] =>
        let E := fresh "E" in destruct (String.eqb o l) eqn:E
    | |- context [match usage ?w ?d with Some _ => _ | None => _ end] =>
        destruct (usage w d)
    end.

Lemma writers_action (a : string) :
  a ∈ ACTIONS → writers a = action_flags.
Proof.
  intros Ha. apply elem_of_ACTIONS in Ha.
  by destruct Ha as [-> | [-> | ->]].
Qed.

Lemma elem_of_action_flags (opt : string) :
  is_in opt ["-b"; "--backup"] = true
  ∨ is_in opt ["-s"; "--snapshot"] = true
  ∨ is_in opt ["-r"; "--rotate"] = true →
  is_in opt action_flags = true.
Proof.
  rewrite is_in_action_flags.
  intros [-> | [-> | ->]]; by rewrite ?orb_true_r.
Qed.

(** One turn of the loop leaves a key alone unless the option is one of its
    writers. *)
Lemma handle_option_writers (w : world) (opt val : string) (st : state)
    (k : string) :
  is_in opt (writers k) = false →
  program_opts (flow_state (handle_option w opt val st)) !! k
  = program_opts st !! k.
Proof.
  intros Hw.
  assert (Haction : ∀ a, a ∈ ACTIONS →
            is_in opt action_flags = true →
            enable_explicit_action (program_opts st) a !! k
            = program_opts st !! k).
  { intros a Ha Hflag. rewrite lookup_enable_explicit_action.
    destruct (decide (k = a)) as [-> | Hka].
    { rewrite (writers_action a Ha) in Hw. congruence. }
    destruct (decide (k ∈ ACTIONS)) as [Hk | Hk]; [|done].
    rewrite (writers_action k Hk) in Hw. congruence. }
  assert (Hkey : ∀ key v flags,
            writers key = flags → is_in opt flags = true →
            <[key := v]> (program_opts st) !! k = program_opts st !! k).
  { intros key v flags Hkey Hflag.
    destruct (decide (key = k)) as [<- | Hne]; [congruence|].
    by apply lookup_insert_ne. }
  loop_cases; cbn [flow_state with_program_opts with_dest_opts emit
                     program_opts]; try done;
    try (by eapply Hkey);
    try (apply Haction;
         [apply elem_of_ACTIONS; auto | apply elem_of_action_flags; auto]);
    try (match goal with
         | E : String.eqb opt _ = true |- _ => apply String.eqb_eq in E as ->
         end;
         first [ by eapply (Hkey _ _ ["--multi-fs"])
               | by eapply (Hkey _ _ ["--disable-notifications"]) ]).
  - by destruct (tunnel_opts w val).
  - destruct (validate_ionice_class w _); [done|]. cbn. by eapply Hkey.
  - destruct (_ !! "exclude_list") as [[]|] eqn:Hx; cbn;
      try (by eapply Hkey);
      (destruct (decide (k = "exclude_list")) as [-> | Hne];
       [change (writers "exclude_list") with ["-x"; "--exclude"] in Hw;
        congruence
       | by apply lookup_setdefault_ne]).
Qed.

(** X2. The frame of the option loop: a key of [program_opts] is as it was
    when none of the options is one of its writers, also when the loop
    stops early. *)
Theorem process_options_writers (w : world)
    (options : list (string * string)) (st : state) (k : string) :
  Forall (λ ov, is_in ov.1 (writers k) = false) options →
  program_opts (flow_state (process_options w options st)) !! k
  = program_opts st !! k.
Proof.
  revert st. induction options as [|[opt val] options IH]; intros st Hall;
    [done|].
  apply Forall_cons_1 in Hall as [Hopt Hall]. cbn [fst] in Hopt.
  pose proof (handle_option_writers w opt val st k Hopt) as Hstep.
  cbn [process_options].
  destruct (handle_option w opt val st) as [st' | st' | e st'];
    cbn [flow_state] in *; [|done..].
  by rewrite (IH st' Hall).
Qed.

Lemma process_options_writers_witness :
  program_opts
    (flow_state
       (process_options (Sample.world_of [] [] None None true)
          [("-b", ""); ("-x", "/proc"); ("--ionice", "bogus"); ("-f", "")]
          initial_state)) !! "mount_point"
  = None.
Proof.
  refine (process_options_writers (Sample.world_of [] [] None None true)
            [("-b", ""); ("-x", "/proc"); ("--ionice", "bogus"); ("-f", "")]
            initial_state "mount_point" _).
  repeat constructor.
Defined.

(** ** What the options leave in [program_opts] *)

(** From [is_in opt [a; b; ...] = true] to one goal for each name. *)
Ltac flag_cases H :=
  apply is_in_spec in H;
  repeat (apply elem_of_cons in H as [-> | H]);
  [.. | by apply elem_of_nil in H].

Lemma values_of_cons (flags : list string) (opt val : string)
    (options : list (string * string)) :
  values_of flags ((opt, val) :: options) =
    if is_in opt flags then val :: values_of flags options
    else values_of flags options.
Proof. unfold values_of. cbn. by destruct (is_in opt flags). Qed.

Lemma process_options_cons_continue (w : world) (opt val : string)
    (options : list (string * string)) (st0 st : state) :
  process_options w ((opt, val) :: options) st0 = Continue st →
  ∃ st1, handle_option w opt val st0 = Continue st1
         ∧ process_options w options st1 = Continue st.
Proof.
  cbn [process_options].
  destruct (handle_option w opt val st0) as [st1 | st1 | e st1];
    [by eauto | done..].
Qed.

(** A key whose writers assign it a value made of the value of the option:
    the last writer on the command line decides. *)
Lemma process_options_last (w : world) (k : string) (g : string → value) :
  (∀ opt val st st1,
     is_in opt (writers k) = true →
     handle_option w opt val st = Continue st1 →
     program_opts st1 !! k = Some (g val)) →
  ∀ options st0 st,
    process_options w options st0 = Continue st →
    program_opts st !! k =
      match last (values_of (writers k) options) with
      | Some v => Some (g v)
      | None => program_opts st0 !! k
      end.
Proof.
  intros Hset options.
  induction options as [|[opt val] options IH]; intros st0 st Hloop.
  - by injection Hloop as <-.
  - apply process_options_cons_continue in Hloop as (st1 & Hstep & Hrest).
    rewrite (IH _ _ Hrest), values_of_cons.
    destruct (is_in opt (writers k)) eqn:Hw.
    + destruct (values_of (writers k) options) as [|v l].
      * cbn. by eapply Hset.
      * change (last (val :: v :: l)) with (last (v :: l)).
        destruct (last (v :: l)) eqn:Hlast; [done|].
        by apply last_None in Hlast.
    + pose proof (handle_option_writers w opt val st0 k Hw) as Hframe.
      rewrite Hstep in Hframe. cbn [flow_state] in Hframe.
      by rewrite Hframe.
Qed.

(** X3. In a loop that ran to its end, [mount_point] and [crypto_device]
    hold the value of the last option that names them, [ionice] the
    value of the last one in lower case and stripped; without such an
    option the key is absent. *)
Theorem last_value_wins (w : world) (options : list (string * string))
    (st : state) :
  process_options w options initial_state = Continue st →
  program_opts st !! "mount_point"
  = VStr <$> last (values_of ["-m"; "--mount"] options)
  ∧ program_opts st !! "crypto_device"
    = VStr <$> last (values_of ["-c"; "--crypto"] options)
  ∧ program_opts st !! "ionice"
    = (λ v, VStr (PyStr.strip (PyStr.lower v)))
        <$> last (values_of ["-i"; "--ionice"] options).
Proof.
  intros Hloop.
  assert (Hlast : ∀ k flags g,
            writers k = flags →
            (∀ opt val st0 st1,
               is_in opt flags = true →
               handle_option w opt val st0 = Continue st1 →
               program_opts st1 !! k = Some (g val)) →
            program_opts st !! k = g <$> last (values_of flags options)).
  { intros k flags g <- Hset.
    rewrite (process_options_last w k g Hset _ _ _ Hloop).
    by destruct (last _). }
  split; [|split].
  - apply Hlast; [reflexivity|]. intros opt val st0 st1 Hopt.
    flag_cases Hopt; intros [= <-]; apply lookup_insert_eq.
  - apply Hlast; [reflexivity|]. intros opt val st0 st1 Hopt.
    flag_cases Hopt; intros [= <-]; apply lookup_insert_eq.
  - apply (Hlast "ionice" _ (λ v, VStr (PyStr.strip (PyStr.lower v))));
      [reflexivity|].
    intros opt val st0 st1 Hopt.
    rewrite (handle_option_ionice w opt val st0 Hopt).
    destruct (validate_ionice_class w _); [done|].
    intros [= <-]. apply lookup_insert_eq.
Qed.

Lemma last_value_wins_witness :
  ∃ st, process_options (Sample.world_of [] [] None None true)
          [("-m", "/mnt/a"); ("-i", " IDLE "); ("--mount", "/mnt/b")]
          initial_state = Continue st
        ∧ program_opts st !! "mount_point" = Some (VStr "/mnt/b")
        ∧ program_opts st !! "ionice" = Some (VStr "idle").
Proof.
  eexists. split; [reflexivity|].
  pose proof (last_value_wins (Sample.world_of [] [] None None true)
                [("-m", "/mnt/a"); ("-i", " IDLE "); ("--mount", "/mnt/b")]
                _ eq_refl) as (Hm & _ & Hi).
  split; [exact Hm | exact Hi].
Defined.

(** X4. In a loop that ran to its end, each switch is in [program_opts]
    exactly when its option occurred, with the one value the option gives
    it: [sudo_enabled] and [notifications_enabled] false, [dry_run],
    [force] and [multi_fs] true. *)
Theorem switches_one_way (w : world) (options : list (string * string))
    (st : state) :
  process_options w options initial_state = Continue st →
  let switch (flags : list string) (b : bool) : option value :=
    match values_of flags options with
    | [] => None
    | _ => Some (VBool b)
    end in
  program_opts st !! "sudo_enabled" = switch ["-u"; "--no-sudo"] false
  ∧ program_opts st !! "dry_run" = switch ["-n"; "--dry-run"] true
  ∧ program_opts st !! "force" = switch ["-f"; "--force"] true
  ∧ program_opts st !! "multi_fs" = switch ["--multi-fs"] true
  ∧ program_opts st !! "notifications_enabled"
    = switch ["--disable-notifications"] false.
Proof.
  intros Hloop switch.
  assert (Hswitch : ∀ k flags b,
            writers k = flags →
            (∀ opt val st0 st1,
               is_in opt flags = true →
               handle_option w opt val st0 = Continue st1 →
               program_opts st1 !! k = Some (VBool b)) →
            program_opts st !! k = switch flags b).
  { intros k flags b <- Hset.
    rewrite (process_options_last w k (λ _, VBool b) Hset _ _ _ Hloop).
    unfold switch. destruct (values_of (writers k) options) as [|v l] eqn:Hv.
    - done.
    - destruct (last (v :: l)) eqn:Hlast; [done|].
      by apply last_None in Hlast. }
  repeat split; (apply Hswitch; [reflexivity|]);
    intros opt val st0 st1 Hopt;
    flag_cases Hopt; intros [= <-]; apply lookup_insert_eq.
Qed.

Lemma switches_one_way_witness :
  ∃ st, process_options (Sample.world_of [] [] None None true)
          [("-u", ""); ("--multi-fs", ""); ("-u", "")] initial_state
        = Continue st
        ∧ program_opts st !! "sudo_enabled" = Some (VBool false)
        ∧ program_opts st !! "force" = None.
Proof.
  eexists. split; [reflexivity|].
  pose proof (switches_one_way (Sample.world_of [] [] None None true)
                [("-u", ""); ("--multi-fs", ""); ("-u", "")] _ eq_refl)
    as (Hu & _ & Hf & _).
  split; [exact Hu | exact Hf].
Defined.

(** ** The list of exclusions *)

Lemma handle_option_exclude (w : world) (opt val : string) (st : state)
    (l : list string) :
  is_in opt ["-x"; "--exclude"] = true →
  excludes l st →
  handle_option w opt val st =
    Continue (with_program_opts (insert "exclude_list" (VList (l ++ [val])))
                                st).
Proof.
  intros Hopt Hl. unfold excludes in Hl.
  flag_cases Hopt; cbn; unfold setdefault; rewrite Hl;
    destruct l; cbn; by rewrite ?lookup_insert_eq, ?Hl.
Qed.

Lemma process_options_excludes (w : world)
    (options : list (string * string)) (st0 st : state) (l : list string) :
  excludes l st0 →
  process_options w options st0 = Continue st →
  excludes (l ++ values_of ["-x"; "--exclude"] options) st.
Proof.
  revert st0 l. induction options as [|[opt val] options IH];
    intros st0 l Hl Hloop.
  - injection Hloop as <-. by rewrite app_nil_r.
  - apply process_options_cons_continue in Hloop as (st1 & Hstep & Hrest).
    rewrite values_of_cons.
    destruct (is_in opt ["-x"; "--exclude"]) eqn:Hopt.
    + rewrite (handle_option_exclude w opt val st0 l Hopt Hl) in Hstep.
      injection Hstep as <-.
      replace (l ++ val :: values_of ["-x"; "--exclude"] options)
        with ((l ++ [val]) ++ values_of ["-x"; "--exclude"] options)
        by (by rewrite <- app_assoc).
      eapply IH; [|exact Hrest]. unfold excludes. cbn.
      rewrite lookup_insert_eq. by destruct l.
    + apply (IH st1 l); [|done]. unfold excludes.
      pose proof (handle_option_writers w opt val st0 "exclude_list" Hopt)
        as Hframe.
      rewrite Hstep in Hframe. cbn [flow_state] in Hframe.
      by rewrite Hframe.
Qed.

(** X5. In a loop that ran to its end, [exclude_list] is the list of the
    patterns of all the [-x]/[--exclude] options, in command line order;
    without such an option the key is absent. *)
Theorem exclude_list_in_order (w : world) (options : list (string * string))
    (st : state) :
  process_options w options initial_state = Continue st →
  program_opts st !! "exclude_list"
  = match values_of ["-x"; "--exclude"] options with
    | [] => None
    | l => Some (VList l)
    end.
Proof.
  intros Hloop.
  pose proof (process_options_excludes w options initial_state st []
                (lookup_empty _) Hloop) as H.
  unfold excludes in H. cbn [app] in H.
  by destruct (values_of ["-x"; "--exclude"] options).
Qed.

Lemma exclude_list_in_order_witness :
  ∃ st, process_options (Sample.world_of [] [] None None true)
          [("-x", "/proc"); ("-f", ""); ("--exclude", "/sys"); ("-x", "/proc")]
          initial_state = Continue st
        ∧ program_opts st !! "exclude_list"
          = Some (VList ["/proc"; "/sys"; "/proc"]).
Proof.
  eexists. split; [reflexivity|].
  exact (exclude_list_in_order (Sample.world_of [] [] None None true)
           [("-x", "/proc"); ("-f", ""); ("--exclude", "/sys"); ("-x", "/proc")]
           _ eq_refl).
Defined.

(** ** The ionice class *)

Section Normalize.

Lemma lower_char_idemp c : PyStr.lower_char (PyStr.lower_char c) = PyStr.lower_char c.
Proof. by destruct c as [[] [] [] [] [] [] [] []]. Qed.

Lemma isspace_lower_char c : PyStr.isspace (PyStr.lower_char c) = PyStr.isspace c.
Proof. by destruct c as [[] [] [] [] [] [] [] []]. Qed.

Lemma lower_idemp s : PyStr.lower (PyStr.lower s) = PyStr.lower s.
Proof.
  induction s as [|c s IH]; [done|]. cbn. by rewrite lower_char_idemp, IH.
Qed.

Lemma lstrip_lower s :
  PyStr.lstrip_by PyStr.isspace (PyStr.lower s)
  = PyStr.lower (PyStr.lstrip_by PyStr.isspace s).
Proof.
  induction s as [|c s IH]; [done|]. cbn. rewrite isspace_lower_char.
  by destruct (PyStr.isspace c).
Qed.

Lemma rstrip_lower s :
  PyStr.rstrip_by PyStr.isspace (PyStr.lower s)
  = PyStr.lower (PyStr.rstrip_by PyStr.isspace s).
Proof.
  induction s as [|c s IH]; [done|]. cbn. rewrite IH, isspace_lower_char.
  destruct (PyStr.rstrip_by PyStr.isspace s); cbn; [|done].
  by destruct (PyStr.isspace c).
Qed.

Lemma strip_lower s : PyStr.strip (PyStr.lower s) = PyStr.lower (PyStr.strip s).
Proof. unfold PyStr.strip, PyStr.strip_by. by rewrite lstrip_lower, rstrip_lower. Qed.

Variable space : ascii → bool.

Lemma lstripped_lstrip_by s : lstripped space (PyStr.lstrip_by space s).
Proof.
  induction s as [|c s IH]; [done|]. cbn.
  by destruct (space c) eqn:Hc.
Qed.

Lemma lstrip_by_lstripped s :
  lstripped space s → PyStr.lstrip_by space s = s.
Proof. destruct s as [|c s]; [done|]. cbn. by intros ->. Qed.

Lemma lstripped_rstrip_by s :
  lstripped space s → lstripped space (PyStr.rstrip_by space s).
Proof.
  destruct s as [|c s]; [done|]. cbn. intros Hc.
  destruct (PyStr.rstrip_by space s); by rewrite ?Hc.
Qed.

Lemma rstrip_by_cons c s :
  PyStr.rstrip_by space (String c s) =
    match PyStr.rstrip_by space s with
    | EmptyString => if space c then EmptyString else String c EmptyString
    | r => String c r
    end.
Proof. done. Qed.

Lemma rstrip_by_idemp s :
  PyStr.rstrip_by space (PyStr.rstrip_by space s) = PyStr.rstrip_by space s.
Proof.
  induction s as [|c s IH]; [done|]. rewrite rstrip_by_cons.
  destruct (PyStr.rstrip_by space s) as [|c' r] eqn:Hr.
  - destruct (space c) eqn:Hc; [done|]. cbn. by rewrite Hc.
  - by rewrite rstrip_by_cons, IH.
Qed.

Lemma strip_by_idemp s :
  PyStr.strip_by space (PyStr.strip_by space s) = PyStr.strip_by space s.
Proof.
  unfold PyStr.strip_by.
  rewrite (lstrip_by_lstripped (PyStr.rstrip_by space _)).
  - apply rstrip_by_idemp.
  - apply lstripped_rstrip_by, lstripped_lstrip_by.
Qed.

End Normalize.

(** [value.lower().strip()] changes nothing when it is done again. *)
Lemma normalize_idemp (s : string) :
  PyStr.strip (PyStr.lower (PyStr.strip (PyStr.lower s)))
  = PyStr.strip (PyStr.lower s).
Proof.
  rewrite <- strip_lower, lower_idemp. unfold PyStr.strip.
  apply strip_by_idemp.
Qed.

Lemma values_of_elem (flags : list string) (options : list (string * string))
    (val : string) :
  val ∈ values_of flags options →
  ∃ opt, (opt, val) ∈ options ∧ is_in opt flags = true.
Proof.
  induction options as [|[opt v] options IH].
  - by intros ?%elem_of_nil.
  - rewrite values_of_cons. destruct (is_in opt flags) eqn:Hopt.
    + intros [-> | Hin]%elem_of_cons.
      * exists opt. split; [apply list_elem_of_here | done].
      * destruct (IH Hin) as (o & ? & ?). exists o.
        split; [by apply list_elem_of_further | done].
    + intros Hin. destruct (IH Hin) as (o & ? & ?). exists o.
      split; [by apply list_elem_of_further | done].
Qed.

(** Every ionice class of a loop that ran to its end went through the
    validation. *)
Lemma process_options_validated (w : world)
    (options : list (string * string)) (st0 st : state) (opt val : string) :
  process_options w options st0 = Continue st →
  (opt, val) ∈ options →
  is_in opt ["-i"; "--ionice"] = true →
  validate_ionice_class w (PyStr.strip (PyStr.lower val)) = None.
Proof.
  revert st0. induction options as [|[o v] options IH]; intros st0 Hloop.
  - by intros ?%elem_of_nil.
  - apply process_options_cons_continue in Hloop as (st1 & Hstep & Hrest).
    intros [[= -> ->] | Hin]%elem_of_cons Hopt; [|by eapply IH].
    rewrite (handle_option_ionice w o v st0 Hopt) in Hstep.
    by destruct (validate_ionice_class w _).
Qed.

(** X6. In a loop that ran to its end, an [ionice] in [program_opts] is a
    string that [validate_ionice_class] accepts and that lower-casing and
    stripping leave as it is. *)
Theorem ionice_valid_and_normal (w : world)
    (options : list (string * string)) (st : state) (v : value) :
  process_options w options initial_state = Continue st →
  program_opts st !! "ionice" = Some v →
  ∃ s, v = VStr s
       ∧ validate_ionice_class w s = None
       ∧ PyStr.strip (PyStr.lower s) = s.
Proof.
  intros Hloop Hv.
  assert (Hset : ∀ opt val st0 st1,
            is_in opt (writers "ionice") = true →
            handle_option w opt val st0 = Continue st1 →
            program_opts st1 !! "ionice"
            = Some (VStr (PyStr.strip (PyStr.lower val)))).
  { intros opt val st0 st1 Hopt.
    change (writers "ionice") with ["-i"; "--ionice"] in Hopt.
    rewrite (handle_option_ionice w opt val st0 Hopt).
    destruct (validate_ionice_class w _); [done|].
    intros [= <-]. apply lookup_insert_eq. }
  rewrite (process_options_last w "ionice" _ Hset _ _ _ Hloop) in Hv.
  change (writers "ionice") with ["-i"; "--ionice"] in Hv.
  destruct (last _) as [raw|] eqn:Hlast; [|done].
  injection Hv as <-. exists (PyStr.strip (PyStr.lower raw)).
  apply last_Some_elem_of, values_of_elem in Hlast as (opt & Hin & Hopt).
  split; [done|]. split; [|apply normalize_idemp].
  by eapply process_options_validated.
Qed.

Lemma ionice_valid_and_normal_witness :
  ∃ s, VStr "best-effort" = VStr s
       ∧ Sample.validate s = None
       ∧ PyStr.strip (PyStr.lower s) = s.
Proof.
  exact (ionice_valid_and_normal (Sample.world_of [] [] None None true)
           [("--ionice", "  Best-Effort")] _ (VStr "best-effort")
           eq_refl eq_refl).
Defined.

(** ** The ways out of [main] *)

(** X7. A help flag reached by the loop ends [main] there, whatever options
    and positional arguments follow, and the engine is not started.
    Without a terminal the usage text is shown and [main] returns; with a
    terminal [usage] fails on the missing docstring, and the [TypeError] is
    reported with exit code 1. *)
Theorem help_ends_main (w : world) (pre post : list (string * string))
    (opt val : string) (arguments : list string) (st : state) :
  gnu_getopt w = inr (pre ++ (opt, val) :: post, arguments) →
  is_in opt help_flags = true →
  process_options w pre initial_state = Continue st →
  (connected_to_terminal w = false →
   main w = (trace st ++ [Usage], Returned))
  ∧ (connected_to_terminal w = true →
     main w = (trace st ++ [Warning "Error: %s" (Exn TypeError UsageOfNone)],
               SysExit 1))
  ∧ ∀ po, Execute po ∉ (main w).1.
Proof.
  intros Hg Hopt Hpre.
  assert (Hparse : parse w initial_state =
            if connected_to_terminal w
            then Raise (Exn TypeError UsageOfNone) st
            else Return_ (emit Usage st)).
  { unfold parse. rewrite Hg, process_options_app, Hpre.
    cbn [process_options]. rewrite (handle_option_help w opt val st Hopt).
    unfold usage, module_doc. by destruct (connected_to_terminal w). }
  split; [|split].
  - intros Htty. unfold main. by rewrite Hparse, Htty.
  - intros Htty. unfold main. by rewrite Hparse, Htty.
  - apply main_not_executed. intros st'. rewrite Hparse.
    by destruct (connected_to_terminal w).
Qed.

Lemma help_ends_main_witness :
  main (Sample.world_of [("-v", ""); ("--help", ""); ("--ionice", "bogus")]
                        ["a"; "b"; "c"] None None false)
  = ([InstallLogging; IncreaseVerbosity; Usage], Returned).
Proof.
  exact (proj1 (help_ends_main
                  (Sample.world_of
                     [("-v", ""); ("--help", ""); ("--ionice", "bogus")]
                     ["a"; "b"; "c"] None None false)
                  [("-v", "")] [("--ionice", "bogus")] "--help" ""
                  ["a"; "b"; "c"] _ eq_refl eq_refl eq_refl) eq_refl).
Defined.

(** The events of the first [try] block are of its own kinds. *)
Lemma handle_option_parse_events (w : world) (opt val : string) (st : state) :
  Forall parse_event (trace st) →
  Forall parse_event (trace (flow_state (handle_option w opt val st))).
Proof.
  intros Hst.
  assert (H1 : ∀ ev, parse_event ev → Forall parse_event (trace st ++ [ev])).
  { intros ev Hev. apply Forall_app. split; [done|]. by constructor. }
  loop_cases; cbn [flow_state with_program_opts with_dest_opts emit trace];
    try done; try (by apply H1).
  - destruct (tunnel_opts w val); cbn; [done|]. by apply H1.
  - by destruct (validate_ionice_class w _).
  - by destruct (_ !! "exclude_list") as [[]|].
Qed.

Lemma process_options_parse_events (w : world)
    (options : list (string * string)) (st : state) :
  Forall parse_event (trace st) →
  Forall parse_event (trace (flow_state (process_options w options st))).
Proof.
  revert st. induction options as [|[opt val] options IH]; intros st Hst;
    [done|].
  pose proof (handle_option_parse_events w opt val st Hst) as Hstep.
  cbn [process_options].
  destruct (handle_option w opt val st) as [st' | st' | e st'];
    cbn [flow_state] in *; [by apply IH | done..].
Qed.

Lemma parse_parse_events (w : world) :
  Forall parse_event (trace (flow_state (parse w initial_state))).
Proof.
  assert (H0 : Forall parse_event (trace initial_state)).
  { by repeat constructor. }
  unfold parse. destruct (gnu_getopt w) as [e | [options arguments]]; [done|].
  pose proof (process_options_parse_events w options initial_state H0) as Hloop.
  destruct (process_options w options initial_state) as [st | st | e st];
    cbn [flow_state] in *; [|done..].
  unfold resolve_arguments.
  destruct arguments as [|a0 [|a1 [|a2 rest]]]; cbn; try done.
  - destruct (no_module_path w); [destruct (usage w module_doc)|]; cbn;
      try done.
    apply Forall_app. split; [done|]. by repeat constructor.
  - apply Forall_app. split; [done|]. by repeat constructor.
  - apply Forall_app. split; [done|]. by repeat constructor.
Qed.

(** When the engine is started: after the first [try] block ran to its end
    and the source context was made. *)
Lemma main_executed (w : world) (po : gmap string value) :
  Execute po ∈ (main w).1 →
  ∃ st ctx,
    parse w initial_state = Continue st
    ∧ create_context w context_opts = inr ctx
    ∧ po = <["source_context" := ctx]> (program_opts st).
Proof.
  intros Hin.
  destruct (parse w initial_state) as [st | st | e st] eqn:Hparse.
  2,3: exfalso; revert Hin; apply main_not_executed;
       intros st'; by rewrite Hparse.
  assert (Hnot : ∀ po', Execute po' ∉ trace st).
  { intros po' Hpo. pose proof (parse_parse_events w) as Hev.
    rewrite Hparse in Hev. rewrite Forall_forall in Hev.
    by apply Hev in Hpo. }
  revert Hin. unfold main. rewrite Hparse. unfold run, triage.
  destruct (create_context w context_opts) as [e | ctx].
  - destruct (is_RsyncSystemBackupError e);
      [destruct (is_MissingBackupDiskError e && negb (connected_to_terminal w))|];
      cbn [fst]; rewrite elem_of_app, list_elem_of_singleton;
      (intros [Hpo | ?]; [by destruct (Hnot po) | done]).
  - assert (Hhere : ∀ tail,
              Forall (λ ev, ¬ is_Execute ev) tail →
              Execute po ∈ (trace st
                ++ [Execute (<["source_context" := ctx]> (program_opts st))])
                ++ tail →
              ∃ st' ctx',
                Continue st = Continue st'
                ∧ @inr exn value ctx = inr ctx'
                ∧ po = <["source_context" := ctx']> (program_opts st')).
    { intros tail Htail. rewrite !elem_of_app, list_elem_of_singleton.
      intros [[Hpo | [= ->]] | Hpo]; [by destruct (Hnot po) | by eauto |].
      rewrite Forall_forall in Htail. by destruct (Htail _ Hpo). }
    destruct (execute w _) as [e|].
    + destruct (is_RsyncSystemBackupError e);
        [destruct (is_MissingBackupDiskError e && negb (connected_to_terminal w))|];
        cbn [fst]; apply Hhere; repeat constructor; tauto.
    + cbn [fst]. intros Hin. rewrite <- (app_nil_r (_ ++ [_])) in Hin.
      by apply Hhere in Hin.
Qed.

(** X9. The engine is started at most once, and only after the first [try]
    block ran to its end and the source context was made: with the options
    map of that block and the context in it. *)
Theorem engine_started_once (w : world) (po : gmap string value) :
  Execute po ∈ (main w).1 →
  ∃ st ctx tail,
    parse w initial_state = Continue st
    ∧ create_context w context_opts = inr ctx
    ∧ po = <["source_context" := ctx]> (program_opts st)
    ∧ (main w).1 = trace st ++ Execute po :: tail
    ∧ Forall (λ ev, ¬ is_Execute ev) (trace st)
    ∧ Forall (λ ev, ¬ is_Execute ev) tail.
Proof.
  intros Hin.
  destruct (parse w initial_state) as [st | st | e st] eqn:Hparse.
  2,3: exfalso; revert Hin; apply main_not_executed;
       intros st'; by rewrite Hparse.
  assert (Hquiet : Forall (λ ev, ¬ is_Execute ev) (trace st)).
  { pose proof (parse_parse_events w) as Hev. rewrite Hparse in Hev.
    eapply Forall_impl; [exact Hev|]. intros ev Hp Hx. by destruct ev. }
  assert (Hnot : ∀ po', Execute po' ∉ trace st).
  { intros po' Hpo. rewrite Forall_forall in Hquiet.
    by apply (Hquiet _ Hpo). }
  revert Hin. unfold main. rewrite Hparse. unfold run, triage.
  destruct (create_context w context_opts) as [e | ctx].
  - destruct (is_RsyncSystemBackupError e);
      [destruct (is_MissingBackupDiskError e && negb (connected_to_terminal w))|];
      cbn [fst]; rewrite elem_of_app, list_elem_of_singleton;
      (intros [Hpo | ?]; [by destruct (Hnot po) | done]).
  - assert (Hhere : ∀ tail,
              Forall (λ ev, ¬ is_Execute ev) tail →
              Execute po ∈ (trace st
                ++ [Execute (<["source_context" := ctx]> (program_opts st))])
                ++ tail →
              po = <["source_context" := ctx]> (program_opts st)).
    { intros tail Htail. rewrite !elem_of_app, list_elem_of_singleton.
      intros [[Hpo | [= ->]] | Hpo]; [by destruct (Hnot po) | done |].
      rewrite Forall_forall in Htail. by destruct (Htail _ Hpo). }
    assert (Hlog : ∀ ev,
              ¬ is_Execute ev →
              Execute po ∈ (trace st
                ++ [Execute (<["source_context" := ctx]> (program_opts st))])
                ++ [ev] →
              ∃ st' ctx' tail,
                Continue st = Continue st'
                ∧ @inr exn value ctx = inr ctx'
                ∧ po = <["source_context" := ctx']> (program_opts st')
                ∧ (trace st
                   ++ [Execute (<["source_context" := ctx]> (program_opts st))])
                  ++ [ev] = trace st' ++ Execute po :: tail
                ∧ Forall (λ ev, ¬ is_Execute ev) (trace st')
                ∧ Forall (λ ev, ¬ is_Execute ev) tail).
    { intros ev Hev Hin.
      assert (Hev' : Forall (λ ev, ¬ is_Execute ev) [ev]) by by constructor.
      pose proof (Hhere [ev] Hev' Hin) as ->.
      exists st, ctx, [ev]. repeat split; try done.
      by rewrite <- app_assoc. }
    destruct (execute w _) as [e|].
    + destruct (is_RsyncSystemBackupError e);
        [destruct (is_MissingBackupDiskError e && negb (connected_to_terminal w))|];
        cbn [fst]; apply Hlog; simpl; tauto.
    + cbn [fst]. intros Hin. rewrite <- (app_nil_r (_ ++ [_])) in Hin.
      apply Hhere in Hin as Hpo; [|done].
      exists st, ctx, []. subst po. by repeat split.
Qed.

Lemma engine_started_once_witness :
  ∃ st ctx tail,
    parse (Sample.world_of [("-b", "")] ["/mnt/backups"] None None true)
          initial_state = Continue st
    ∧ create_context (Sample.world_of [("-b", "")] ["/mnt/backups"] None None true)
                     context_opts = inr ctx
    ∧ <["source_context" := VContext ∅]>
        (<["destination" :=
             VObject Destination {["expression" := VStr "/mnt/backups"]}]>
           (enable_explicit_action ∅ "backup_enabled"))
      = <["source_context" := ctx]> (program_opts st)
    ∧ (main (Sample.world_of [("-b", "")] ["/mnt/backups"] None None true)).1
      = trace st
        ++ Execute (<["source_context" := VContext ∅]>
                      (<["destination" :=
                           VObject Destination
                             {["expression" := VStr "/mnt/backups"]}]>
                         (enable_explicit_action ∅ "backup_enabled")))
           :: tail
    ∧ Forall (λ ev, ¬ is_Execute ev) (trace st)
    ∧ Forall (λ ev, ¬ is_Execute ev) tail.
Proof.
  apply (engine_started_once
           (Sample.world_of [("-b", "")] ["/mnt/backups"] None None true)).
  cbn. do 2 apply list_elem_of_further. apply list_elem_of_here.
Defined.

(** X10. The process exits with code 1 exactly when the user was told of an
    error, by a warning or by a log record at error level. *)
Theorem exit_1_iff_error_told (w : world) :
  (main w).2 = SysExit 1 ↔ Exists error_event (main w).1.
Proof.
  assert (Hquiet : ∀ tr, Forall parse_event tr → ¬ Exists error_event tr).
  { intros tr Hall Hex. apply Exists_exists in Hex as (ev & Hin & Herr).
    rewrite Forall_forall in Hall. specialize (Hall ev Hin).
    destruct ev as [ | [] ? [] [] | | | | | | ]; done. }
  assert (Hlast : ∀ tr ev, error_event ev → Exists error_event (tr ++ [ev])).
  { intros tr ev Hev. apply Exists_app. right. by constructor. }
  assert (Hnone : ∀ tr evs,
            Forall parse_event tr →
            Forall (λ ev, ¬ error_event ev) evs →
            ¬ Exists error_event (tr ++ evs)).
  { intros tr evs Htr Hevs [Hex | Hex]%Exists_app; [by apply (Hquiet tr)|].
    apply Exists_exists in Hex as (ev & Hin & Herr).
    rewrite Forall_forall in Hevs. by apply (Hevs ev Hin). }
  pose proof (parse_parse_events w) as Hparse.
  unfold main, run, triage.
  destruct (parse w initial_state) as [st | st | e st];
    cbn [flow_state fst snd] in *.
  - destruct (create_context w context_opts) as [e | ctx].
    + destruct (is_RsyncSystemBackupError e);
        [destruct (is_MissingBackupDiskError e
                   && negb (connected_to_terminal w))|];
        cbn [fst snd]; split; try done; try (intros _; by apply Hlast).
      intros Hex. exfalso. revert Hex. apply Hnone; [done|].
      repeat constructor. tauto.
    + destruct (execute w _) as [e|].
      * destruct (is_RsyncSystemBackupError e);
          [destruct (is_MissingBackupDiskError e
                     && negb (connected_to_terminal w))|];
          cbn [fst snd]; split; try done; try (intros _; by apply Hlast).
        intros Hex. exfalso. revert Hex. rewrite <- app_assoc.
        apply Hnone; [done|]. repeat constructor; tauto.
      * cbn [fst snd]. split; [done|]. intros Hex. exfalso. revert Hex.
        apply Hnone; [done|]. repeat constructor. tauto.
  - split; [done|]. intros Hex. by destruct (Hquiet _ Hparse).
  - split; [|done]. intros _. by apply Hlast.
Qed.

(** X11. A failure of [create_context] or of the engine ends the process
    with code 0 exactly when it is a "backup disk missing" error and no
    terminal is attached, and with code 1 otherwise; a failing
    [create_context] leaves the engine unused. *)
Theorem failure_exit_status (w : world) (st : state) (e : exn) :
  parse w initial_state = Continue st →
  create_context w context_opts = inl e
  ∨ (∃ ctx, create_context w context_opts = inr ctx
            ∧ execute w (<["source_context" := ctx]> (program_opts st))
              = Some e) →
  ((main w).2 = SysExit 0 ↔
     exn_class_of e = MissingBackupDiskError
     ∧ connected_to_terminal w = false)
  ∧ ((main w).2 = SysExit 0 ∨ (main w).2 = SysExit 1)
  ∧ (create_context w context_opts = inl e → ∀ po, Execute po ∉ (main w).1).
Proof.
  intros Hparse Hfail.
  assert (Hclass : is_RsyncSystemBackupError e
                   && (is_MissingBackupDiskError e
                       && negb (connected_to_terminal w)) = true
                   ↔ exn_class_of e = MissingBackupDiskError
                     ∧ connected_to_terminal w = false).
  { unfold is_RsyncSystemBackupError, is_MissingBackupDiskError.
    destruct (exn_class_of e), (connected_to_terminal w); cbn;
      split; (try done); intros [? ?]; done. }
  assert (Htriage : ∀ tr,
            ((triage w e tr).2 = SysExit 0 ↔
               exn_class_of e = MissingBackupDiskError
               ∧ connected_to_terminal w = false)
            ∧ ((triage w e tr).2 = SysExit 0 ∨ (triage w e tr).2 = SysExit 1)).
  { intros tr. rewrite <- Hclass. unfold triage.
    destruct (is_RsyncSystemBackupError e);
      [destruct (is_MissingBackupDiskError e
                 && negb (connected_to_terminal w))|];
      cbn; split; auto; split; done. }
  rewrite (main_continue w st Hparse). unfold run.
  destruct Hfail as [Hctx | (ctx & Hctx & Hexec)].
  - rewrite Hctx. destruct (Htriage (trace st)) as [Hiff Hor].
    split; [done|]. split; [done|]. intros _ po Hin.
    pose proof (parse_parse_events w) as Hev. rewrite Hparse in Hev.
    cbn [flow_state] in Hev. rewrite Forall_forall in Hev.
    revert Hin. unfold triage.
    destruct (is_RsyncSystemBackupError e);
      [destruct (is_MissingBackupDiskError e
                 && negb (connected_to_terminal w))|];
      cbn [fst]; rewrite elem_of_app, list_elem_of_singleton;
      (intros [Hpo | ?]; [by apply Hev in Hpo | done]).
  - rewrite Hctx, Hexec. destruct (Htriage (trace st ++
      [Execute (<["source_context" := ctx]> (program_opts st))]))
      as [Hiff Hor].
    split; [done|]. split; [done|]. intros [=].
Qed.

Lemma failure_exit_status_witness :
  (main (World (inr ([], ["/mnt/backups"])) Sample.validate 873 None
               (λ _, inl Sample.disk_missing) (λ _, None) false)).2
  = SysExit 0.
Proof.
  apply (failure_exit_status
           (World (inr ([], ["/mnt/backups"])) Sample.validate 873 None
                  (λ _, inl Sample.disk_missing) (λ _, None) false)
           _ Sample.disk_missing eq_refl (or_introl eq_refl)).
  by split.
Defined.

(** ** The errors of the option loop *)

Lemma excludes_step (w : world) (opt val : string) (st st1 : state) :
  (∃ l, excludes l st) →
  handle_option w opt val st = Continue st1 →
  ∃ l, excludes l st1.
Proof.
  intros [l Hl] Hstep.
  destruct (is_in opt ["-x"; "--exclude"]) eqn:Hopt.
  - rewrite (handle_option_exclude w opt val st l Hopt Hl) in Hstep.
    injection Hstep as <-. exists (l ++ [val]). unfold excludes. cbn.
    rewrite lookup_insert_eq. by destruct l.
  - exists l. unfold excludes.
    pose proof (handle_option_writers w opt val st "exclude_list" Hopt)
      as Hframe.
    rewrite Hstep in Hframe. cbn [flow_state] in Hframe. by rewrite Hframe.
Qed.

Lemma tunnel_opts_raise (w : world) (val : string) (e : exn) :
  tunnel_opts w val = inl e →
  port_segment val ≠ ""
  ∧ PyStr.int (port_segment val) = None
  ∧ e = Exn ValueError (InvalidLiteral (port_segment val)).
Proof.
  destruct (tunnel_opts_by_port w val) as (common & _ & ->).
  destruct (port_segment val) as [|c p] eqn:Hp; cbn; [done|].
  destruct (PyStr.int (String c p)); [done|]. by intros [= <-].
Qed.

(** An option of the table meets one of the tests of the loop body. *)
Lemma option_table_handled (opt : string) :
  opt ∈ option_table →
  is_in opt (action_flags
             ++ ["-m"; "--mount"; "-c"; "--crypto"; "-t"; "--tunnel";
                 "-i"; "--ionice"; "-u"; "--no-sudo"; "-n"; "--dry-run";
                 "-f"; "--force"; "-x"; "--exclude"; "--multi-fs";
                 "--disable-notifications"; "-v"; "--verbose";
                 "-q"; "--quiet"; "-h"; "--help"]) = true.
Proof.
  intros Hin. unfold option_table in Hin.
  repeat (apply elem_of_cons in Hin as [-> | Hin]); try reflexivity.
  by apply elem_of_nil in Hin.
Qed.

(** What one turn of the loop can raise, when [exclude_list] is a list or
    absent. *)
Lemma handle_option_raise (w : world) (opt val : string) (st st' : state)
    (e : exn) :
  (∃ l, excludes l st) →
  handle_option w opt val st = Raise e st' →
  st' = st
  ∧ ((is_in opt ["-t"; "--tunnel"] = true ∧ tunnel_opts w val = inl e)
     ∨ (is_in opt ["-i"; "--ionice"] = true
        ∧ validate_ionice_class w (PyStr.strip (PyStr.lower val)) = Some e)
     ∨ (is_in opt help_flags = true
        ∧ connected_to_terminal w = true
        ∧ e = Exn TypeError UsageOfNone)
     ∨ ((opt ∉ option_table)
        ∧ e = Exn Exception_ (Text "Unhandled option! (programming error)"))).
Proof.
  intros [l Hl].
  destruct (is_in opt ["-x"; "--exclude"]) eqn:Hx.
  { by rewrite (handle_option_exclude w opt val st l Hx Hl). }
  destruct (is_in opt help_flags) eqn:Hh.
  { rewrite (handle_option_help w opt val st Hh). unfold usage, module_doc.
    destruct (connected_to_terminal w) eqn:Htty; [|done].
    intros [= <- <-]. split; [done|]. right. right. left. auto. }
  unfold help_flags in Hh.
  loop_cases; try discriminate; try congruence.
  - destruct (tunnel_opts w val) as [e'|kw] eqn:Ht; [|done].
    intros [= <- <-]. auto.
  - destruct (validate_ionice_class w _) as [e'|] eqn:Hv; [|done].
    intros [= <- <-]. auto.
  - intros [= <- <-]. split; [done|]. right. right. right. split; [|done].
    intros Hin%option_table_handled. revert Hin.
    unfold is_in in *. cbn [existsb app action_flags] in *.
    repeat match goal with
           | H : _ || _ = false |- _ => apply orb_false_elim in H as [? ?]
           end.
    repeat match goal with
           | H : String.eqb opt ?s = false |- _ => rewrite H; clear H
           end.
    done.
Qed.

(** X12. The option loop, from the start of [main], stops with an error in
    four ways only: the port of a tunnel that [int] rejects, an ionice
    class that the validation rejects, a help flag whose usage text fails
    on a terminal, or an option outside the table of [gnu_getopt].  The
    state is then the one the failing option met. *)
Theorem process_options_errors (w : world) (options : list (string * string))
    (e : exn) (st : state) :
  process_options w options initial_state = Raise e st →
  ∃ pre opt val post,
    options = pre ++ (opt, val) :: post
    ∧ process_options w pre initial_state = Continue st
    ∧ ((is_in opt ["-t"; "--tunnel"] = true
        ∧ port_segment val ≠ ""
        ∧ PyStr.int (port_segment val) = None
        ∧ e = Exn ValueError (InvalidLiteral (port_segment val)))
       ∨ (is_in opt ["-i"; "--ionice"] = true
          ∧ validate_ionice_class w (PyStr.strip (PyStr.lower val)) = Some e)
       ∨ (is_in opt help_flags = true
          ∧ connected_to_terminal w = true
          ∧ e = Exn TypeError UsageOfNone)
       ∨ ((opt ∉ option_table)
          ∧ e = Exn Exception_
                    (Text "Unhandled option! (programming error)"))).
Proof.
  assert (Hgen : ∀ st0,
            (∃ l, excludes l st0) →
            process_options w options st0 = Raise e st →
            ∃ pre opt val post,
              options = pre ++ (opt, val) :: post
              ∧ process_options w pre st0 = Continue st
              ∧ ((is_in opt ["-t"; "--tunnel"] = true
                  ∧ tunnel_opts w val = inl e)
                 ∨ (is_in opt ["-i"; "--ionice"] = true
                    ∧ validate_ionice_class w (PyStr.strip (PyStr.lower val))
                      = Some e)
                 ∨ (is_in opt help_flags = true
                    ∧ connected_to_terminal w = true
                    ∧ e = Exn TypeError UsageOfNone)
                 ∨ ((opt ∉ option_table)
                    ∧ e = Exn Exception_
                              (Text "Unhandled option! (programming error)")))).
  { induction options as [|[opt val] options IH]; intros st0 Hinv; [done|].
    cbn [process_options].
    destruct (handle_option w opt val st0) as [st1 | st1 | e1 st1] eqn:Hstep;
      [|done|].
    - intros Hrest.
      destruct (IH st1 (excludes_step w opt val st0 st1 Hinv Hstep) Hrest)
        as (pre & o & v & post & -> & Hpre & Hcase).
      exists ((opt, val) :: pre), o, v, post. split; [done|].
      split; [|done]. cbn [process_options]. by rewrite Hstep.
    - intros [= -> ->].
      apply (handle_option_raise w opt val st0 st e Hinv) in Hstep
        as [-> Hcase].
      by exists [], opt, val, options. }
  intros Hloop.
  destruct (Hgen initial_state) as (pre & opt & val & post & ? & ? & Hcase);
    [by exists [] | done |].
  exists pre, opt, val, post. split; [done|]. split; [done|].
  destruct Hcase as [[? Ht] | [? | [? | ?]]];
    [left | by right; left | by right; right; left | by right; right; right].
  by apply tunnel_opts_raise in Ht as (? & ? & ?).
Qed.

Lemma process_options_errors_witness :
  ∃ pre opt val post,
    [("-f", ""); ("-t", "host:port"); ("-b", "")] = pre ++ (opt, val) :: post
    ∧ process_options (Sample.world_of [] [] None None true) pre initial_state
      = Continue (with_program_opts (insert "force" (VBool true)) initial_state)
    ∧ ((is_in opt ["-t"; "--tunnel"] = true
        ∧ port_segment val ≠ ""
        ∧ PyStr.int (port_segment val) = None
        ∧ Exn ValueError (InvalidLiteral "port")
          = Exn ValueError (InvalidLiteral (port_segment val)))
       ∨ (is_in opt ["-i"; "--ionice"] = true
          ∧ Sample.validate (PyStr.strip (PyStr.lower val))
            = Some (Exn ValueError (InvalidLiteral "port")))
       ∨ (is_in opt help_flags = true
          ∧ true = true
          ∧ Exn ValueError (InvalidLiteral "port")
            = Exn TypeError UsageOfNone)
       ∨ ((opt ∉ option_table)
          ∧ Exn ValueError (InvalidLiteral "port")
            = Exn Exception_
                  (Text "Unhandled option! (programming error)"))).
Proof.
  exact (process_options_errors (Sample.world_of [] [] None None true)
           [("-f", ""); ("-t", "host:port"); ("-b", "")] _ _ eq_refl).
Defined.

(** ** Writing a tunnel and reading it back *)

(** The three parts of a triple, by projections. *)
Lemma surjective_pairing_3 {A B C : Type} (p : A * B * C) :
  p = (p.1.1, p.1.2, p.2).
Proof. by destruct p as [[? ?] ?]. Qed.

Section Joining.

Variable sep : ascii.

Lemma contains_append a b :
  PyStr.contains sep (a +:+ b) = PyStr.contains sep a || PyStr.contains sep b.
Proof.
  induction a as [|c a IH]; [done|]. simpl. by rewrite IH, orb_assoc.
Qed.

Lemma partition_first a p :
  PyStr.contains sep a = false →
  PyStr.partition sep (a +:+ String sep p) = (a, String sep "", p).
Proof.
  induction a as [|c a IH]; simpl.
  - by rewrite Ascii.eqb_refl.
  - intros [Hc Ha]%orb_false_elim. by rewrite Hc, (IH Ha).
Qed.

Lemma rpartition_last u r :
  PyStr.contains sep r = false →
  PyStr.rpartition sep (u +:+ String sep r) = (u, String sep "", r).
Proof.
  intros Hr. induction u as [|c u IH]; simpl.
  - by rewrite Hr, Ascii.eqb_refl.
  - rewrite contains_append. simpl. rewrite Ascii.eqb_refl, orb_true_r.
    by rewrite IH.
Qed.

End Joining.

(** A string of decimal digits. *)
Lemma isdigit_not_space c : PyStr.isdigit c = true → PyStr.isspace_int c = false.
Proof. by destruct c as [[] [] [] [] [] [] [] []]. Qed.

Lemma all_digits_contains c s :
  PyStr.isdigit c = false → all_digits s = true → PyStr.contains c s = false.
Proof.
  intros Hc. induction s as [|c0 s IH]; [done|]. cbn.
  intros [Hc0 Hs]%andb_true_iff. rewrite (IH Hs), orb_false_r.
  apply Ascii.eqb_neq. intros ->. congruence.
Qed.

Lemma all_digits_lstrip s :
  all_digits s = true → PyStr.lstrip_by PyStr.isspace_int s = s.
Proof.
  destruct s as [|c s]; [done|]. cbn. intros [Hc _]%andb_true_iff.
  by rewrite (isdigit_not_space c Hc).
Qed.

Lemma all_digits_rstrip s :
  all_digits s = true → PyStr.rstrip_by PyStr.isspace_int s = s.
Proof.
  induction s as [|c s IH]; [done|]. cbn. intros [Hc Hs]%andb_true_iff.
  rewrite (IH Hs). destruct s; [|done].
  by rewrite (isdigit_not_space c Hc).
Qed.

Lemma all_digits_int s :
  all_digits s = true → PyStr.int s = PyStr.literal s.
Proof.
  intros Hs. unfold PyStr.int, PyStr.strip_by.
  rewrite (all_digits_lstrip s Hs), (all_digits_rstrip s Hs).
  destruct s as [|c s]; [done|].
  cbn in Hs. apply andb_true_iff in Hs as [Hc _].
  by destruct c as [[] [] [] [] [] [] [] []].
Qed.

Lemma all_digits_string_of_uint d :
  all_digits (NilEmpty.string_of_uint d) = true.
Proof. induction d; done. Qed.

Lemma digits_string_of_uint d acc after_digit :
  d ≠ Decimal.Nil ∨ after_digit = true →
  PyStr.digits (Z.of_nat acc) after_digit (NilEmpty.string_of_uint d)
  = Some (Z.of_nat (Nat.of_uint_acc d acc)).
Proof.
  revert acc after_digit.
  induction d as [|d IH|d IH|d IH|d IH|d IH|d IH|d IH|d IH|d IH|d IH];
    intros acc after_digit Hd.
  { destruct Hd as [? | ->]; done. }
  all: cbn [NilEmpty.string_of_uint PyStr.digits Nat.of_uint_acc];
    match goal with
    | |- context [PyStr.isdigit ?c] =>
        change (PyStr.isdigit c) with true; cbn iota;
        match goal with
        | |- context [PyStr.digit_val c] =>
            let v := eval vm_compute in (PyStr.digit_val c) in
            change (PyStr.digit_val c) with v
        end
    end;
    rewrite <- (IH _ true) by auto; f_equal; rewrite Nat.tail_mul_spec; lia.
Qed.

Lemma all_digits_count s :
  all_digits s = true → PyStr.count_digits s = String.length s.
Proof.
  induction s as [|c s IH]; [done|]. cbn.
  intros [-> Hs]%andb_true_iff. by rewrite (IH Hs).
Qed.

(** What ["%i"] writes: digits, at least one, with the value of the
    number. *)
Lemma digits_format_i (n : nat) :
  PyStr.digits 0 false (PyStr.format_i n) = Some (Z.of_nat n)
  ∧ all_digits (PyStr.format_i n) = true
  ∧ PyStr.format_i n ≠ "".
Proof.
  unfold PyStr.format_i, NilZero.string_of_uint.
  pose proof (DecimalNat.Unsigned.of_to n) as Hn. unfold Nat.of_uint in Hn.
  destruct (Nat.to_uint n) as [|d|d|d|d|d|d|d|d|d|d] eqn:Hd.
  { cbn in Hn. subst n. by compute. }
  all: split; [|split; [apply all_digits_string_of_uint | done]];
    rewrite (digits_string_of_uint _ 0) by (by left);
    by rewrite Hn.
Qed.

(** [int] reads back what ["%i"] writes, within the bound on the digits. *)
Lemma int_format_i (n : nat) :
  (String.length (PyStr.format_i n) ≤ PyStr.max_str_digits)%nat →
  PyStr.int (PyStr.format_i n) = Some (Z.of_nat n).
Proof.
  intros Hlen. destruct (digits_format_i n) as (Hdigits & Hall & _).
  rewrite (all_digits_int _ Hall). unfold PyStr.literal.
  rewrite (all_digits_count _ Hall).
  destruct (Nat.ltb_spec PyStr.max_str_digits
              (String.length (PyStr.format_i n))); [lia | done].
Qed.

(** X13. A tunnel written as [user@alias:port], with an alias free of
    ["@"] and [":"] and the port in decimal digits, no more of them than
    [int] takes, is read back as this user, alias and port; written
    without [user@], the user is empty. *)
Theorem tunnel_opts_of_written (w : world) (user alias : string) (n : nat) :
  PyStr.contains "@" alias = false →
  PyStr.contains ":" alias = false →
  (String.length (PyStr.format_i n) ≤ PyStr.max_str_digits)%nat →
  let kwargs (ssh_user : string) : gmap string value :=
    <["port" := VInt (Z.of_nat n)]>
      (<["remote_port" := VInt (RSYNCD_PORT w)]>
         (<["ssh_user" := VStr ssh_user]>
            (<["ssh_alias" := VStr alias]> ∅))) in
  tunnel_opts w (user +:+ "@" +:+ alias +:+ ":" +:+ PyStr.format_i n)
  = inr (kwargs user)
  ∧ tunnel_opts w (alias +:+ ":" +:+ PyStr.format_i n) = inr (kwargs "").
Proof.
  intros Hat Hcolon Hlen kwargs.
  pose proof (int_format_i n Hlen) as Hint.
  destruct (digits_format_i n) as (_ & Hdigits & Hne).
  assert (Hrest : PyStr.contains "@" (alias +:+ ":" +:+ PyStr.format_i n)
                  = false).
  { rewrite contains_append, Hat.
    change (PyStr.contains "@" (":" +:+ PyStr.format_i n))
      with (PyStr.contains "@" (PyStr.format_i n)).
    by apply all_digits_contains. }
  assert (Hport : PyStr.partition ":" (alias +:+ ":" +:+ PyStr.format_i n)
                  = (alias, ":", PyStr.format_i n)).
  { by apply (partition_first ":"). }
  assert (Htruthy : PyStr.truthy (PyStr.format_i n) = true).
  { by destruct (PyStr.format_i n). }
  split; unfold tunnel_opts.
  - change (user +:+ "@" +:+ alias +:+ ":" +:+ PyStr.format_i n)
      with (user +:+ String "@" (alias +:+ ":" +:+ PyStr.format_i n)).
    rewrite (rpartition_last "@" user _ Hrest), Hport, Htruthy, Hint. done.
  - destruct (rpartition_inv "@" _ _ _ _
                (surjective_pairing_3 (PyStr.rpartition "@"
                   (alias +:+ ":" +:+ PyStr.format_i n))))
      as [_ [[_ Heq] | (_ & Hu & _ & Hr)]].
    + exfalso. rewrite Heq, contains_append in Hrest. cbn in Hrest.
      rewrite orb_true_r in Hrest. done.
    + destruct (PyStr.rpartition "@" _) as [[u m] r]. cbn in Hu, Hr.
      subst u r. by rewrite Hport, Htruthy, Hint.
Qed.

Lemma tunnel_opts_of_written_witness :
  tunnel_opts (Sample.world_of [] [] None None true)
              ("backup" +:+ "@" +:+ "nas.example.org" +:+ ":"
               +:+ PyStr.format_i 2222)
  = inr (<["port" := VInt 2222]>
           (<["remote_port" := VInt 873]>
              (<["ssh_user" := VStr "backup"]>
                 (<["ssh_alias" := VStr "nas.example.org"]> ∅)))).
Proof.
  exact (proj1 (tunnel_opts_of_written (Sample.world_of [] [] None None true)
                  "backup" "nas.example.org" 2222 eq_refl eq_refl
                  (proj1 (Nat.leb_le (String.length (PyStr.format_i 2222))
                                     PyStr.max_str_digits)
                         eq_refl))).
Defined.

(** ** What the destination is built from *)

Lemma handle_option_dest_opts (w : world) (opt val : string) (st : state) :
  is_in opt ["-t"; "--tunnel"] = false →
  dest_opts (flow_state (handle_option w opt val st)) = dest_opts st.
Proof.
  intros Hopt. loop_cases; try done; try congruence.
  - by destruct (validate_ionice_class w _).
  - by destruct (_ !! "exclude_list") as [[]|].
Qed.

(** Every tunnel of a loop that ran to its end was read without error. *)
Lemma process_options_tunnels (w : world)
    (options : list (string * string)) (st0 st : state) (val : string) :
  process_options w options st0 = Continue st →
  val ∈ values_of ["-t"; "--tunnel"] options →
  ∃ kw, tunnel_opts w val = inr kw.
Proof.
  revert st0. induction options as [|[o v] options IH]; intros st0 Hloop.
  - by intros ?%elem_of_nil.
  - apply process_options_cons_continue in Hloop as (st1 & Hstep & Hrest).
    rewrite values_of_cons.
    destruct (is_in o ["-t"; "--tunnel"]) eqn:Hopt; [|by eapply IH].
    intros [-> | Hin]%elem_of_cons; [|by eapply IH].
    rewrite (handle_option_tunnel w o v st0 Hopt) in Hstep.
    destruct (tunnel_opts w v) as [e | kw]; [done | by exists kw].
Qed.

(** The keyword arguments that the tunnel options leave for
    [Destination]. *)
Lemma process_options_dest_opts (w : world)
    (options : list (string * string)) (st0 st : state) :
  process_options w options st0 = Continue st →
  dest_opts st = with_tunnel w (last (values_of ["-t"; "--tunnel"] options))
                             (dest_opts st0).
Proof.
  revert st0. induction options as [|[opt val] options IH]; intros st0 Hloop.
  - by injection Hloop as <-.
  - apply process_options_cons_continue in Hloop as (st1 & Hstep & Hrest).
    rewrite (IH _ Hrest), values_of_cons.
    destruct (is_in opt ["-t"; "--tunnel"]) eqn:Hopt.
    + rewrite (handle_option_tunnel w opt val st0 Hopt) in Hstep.
      destruct (tunnel_opts w val) as [e | kw] eqn:Ht; [done|].
      injection Hstep as <-. cbn [dest_opts with_dest_opts emit].
      destruct (values_of ["-t"; "--tunnel"] options) as [|v l] eqn:Hvals.
      * unfold with_tunnel. cbn [last]. by rewrite Ht.
      * change (last (val :: v :: l)) with (last (v :: l)).
        destruct (last (v :: l)) as [v'|] eqn:Hlast.
        2:{ by apply last_None in Hlast. }
        apply last_Some_elem_of in Hlast. rewrite <- Hvals in Hlast.
        destruct (process_options_tunnels w _ _ _ _ Hrest Hlast) as [kw' Hkw'].
        unfold with_tunnel. rewrite Hkw'. apply insert_insert_eq.
    + pose proof (handle_option_dest_opts w opt val st0 Hopt) as Hframe.
      rewrite Hstep in Hframe. cbn [flow_state] in Hframe.
      by rewrite Hframe.
Qed.

(** X14. After a loop that ran to its end, with one or two positional
    arguments: [Destination] is built once, as the last thing of the first
    [try] block, from the last positional argument as [expression] and, when
    a tunnel option occurred, the [SecureTunnel] of the last one as
    [ssh_tunnel], and from nothing else. *)
Theorem destination_kwargs (w : world) (options : list (string * string))
    (arguments : list string) (st : state) (expression : string) :
  gnu_getopt w = inr (options, arguments) →
  process_options w options initial_state = Continue st →
  (length arguments ≤ 2)%nat →
  last arguments = Some expression →
  let kwargs :=
    <["expression" := VStr expression]>
      (with_tunnel w (last (values_of ["-t"; "--tunnel"] options)) ∅) in
  ∃ st', parse w initial_state = Continue st'
         ∧ program_opts st' !! "destination"
           = Some (VObject Destination kwargs)
         ∧ last (trace st') = Some (Construct Destination kwargs)
         ∧ ∀ kw, Construct Destination kw ∈ trace st' → kw = kwargs.
Proof.
  intros Hg Hloop Hlen Hlast kwargs.
  pose proof (process_options_dest_opts w options initial_state st Hloop)
    as Hdest. cbn [dest_opts initial_state] in Hdest.
  assert (Hquiet : ∀ kw, Construct Destination kw ∉ trace st).
  { intros kw Hin.
    destruct (process_options_trace w options initial_state)
      as (evs & Hevs & Hq).
    rewrite Hloop in Hevs. cbn [flow_state] in Hevs. rewrite Hevs in Hin.
    cbn in Hin. apply elem_of_cons in Hin as [? | Hin]; [done|].
    rewrite Forall_forall in Hq. by apply (Hq _ Hin). }
  assert (Hone : ∀ tr kw kw',
            (∀ kw, Construct Destination kw ∉ tr) →
            Construct Destination kw' ∈ tr ++ [Construct Destination kw] →
            kw' = kw).
  { intros tr kw kw' Htr. rewrite elem_of_app, list_elem_of_singleton.
    intros [Hin | [= ->]]; [by destruct (Htr kw') | done]. }
  unfold parse. rewrite Hg, Hloop. unfold resolve_arguments.
  destruct arguments as [|a0 [|a1 [|a2 rest]]]; cbn in Hlen, Hlast;
    [done | | | lia].
  - injection Hlast as ->. cbn. rewrite Hdest.
    eexists. split; [reflexivity|]. cbn.
    split; [apply lookup_insert_eq|]. split; [apply last_snoc|].
    intros kw. by apply Hone.
  - injection Hlast as ->. cbn. rewrite Hdest.
    eexists. split; [reflexivity|]. cbn.
    split; [apply lookup_insert_eq|]. split; [apply last_snoc|].
    intros kw. by apply Hone.
Qed.

Lemma destination_kwargs_witness :
  ∃ st', parse (Sample.world_of [("-t", "a@one"); ("-t", "two:22")]
                                ["/home"; "rsync://backups"] None None true)
               initial_state = Continue st'
         ∧ program_opts st' !! "destination"
           = Some (VObject Destination
                     (<["expression" := VStr "rsync://backups"]>
                        (<["ssh_tunnel" :=
                             VObject SecureTunnel
                               (<["port" := VInt 22]>
                                  (<["remote_port" := VInt 873]>
                                     (<["ssh_user" := VStr ""]>
                                        (<["ssh_alias" := VStr "two"]> ∅))))]>
                           ∅))).
Proof.
  destruct (destination_kwargs
              (Sample.world_of [("-t", "a@one"); ("-t", "two:22")]
                               ["/home"; "rsync://backups"] None None true)
              _ _ _ "rsync://backups" eq_refl eq_refl (le_n 2) eq_refl)
    as (st' & Hparse & Hdest & _).
  exists st'. split; [exact Hparse | exact Hdest].
Defined.

(** ** Verbosity *)

Lemma net_verbosity_snoc (tr : list event) (ev : event) :
  net_verbosity (tr ++ [ev]) = (net_verbosity tr + net_verbosity [ev])%Z.
Proof.
  induction tr as [|ev' tr IH].
  - by destruct ev.
  - change ((ev' :: tr) ++ [ev]) with (ev' :: (tr ++ [ev])).
    set (d := net_verbosity [ev]) in *.
    destruct ev'; cbn [net_verbosity]; rewrite IH; lia.
Qed.

Lemma handle_option_verbosity (w : world) (opt val : string) (st st1 : state) :
  handle_option w opt val st = Continue st1 →
  net_verbosity (trace st1)
  = (net_verbosity (trace st)
     + (if is_in opt ["-v"; "--verbose"] then 1 else 0)
     - (if is_in opt ["-q"; "--quiet"] then 1 else 0))%Z.
Proof.
  destruct (is_in opt ["-v"; "--verbose"]) eqn:Hv.
  { flag_cases Hv; intros [= <-]; cbn; rewrite net_verbosity_snoc; cbn; lia. }
  destruct (is_in opt ["-q"; "--quiet"]) eqn:Hq.
  { flag_cases Hq; intros [= <-]; cbn; rewrite net_verbosity_snoc; cbn; lia. }
  loop_cases; try discriminate; try congruence;
    try (intros [= <-]; cbn; rewrite ?net_verbosity_snoc; cbn; lia).
  - destruct (tunnel_opts w val); [done|].
    intros [= <-]. cbn. rewrite net_verbosity_snoc. cbn. lia.
  - destruct (validate_ionice_class w _); [done|]. intros [= <-]. cbn. lia.
  - destruct (_ !! "exclude_list") as [[]|]; try done;
      intros [= <-]; cbn; lia.
Qed.

(** X15. In a loop that ran to its end, the verbosity of the logging was
    raised once for each [-v]/[--verbose] and lowered once for each
    [-q]/[--quiet], and by nothing else. *)
Theorem verbosity_counts (w : world) (options : list (string * string))
    (st : state) :
  process_options w options initial_state = Continue st →
  net_verbosity (trace st)
  = (count_of ["-v"; "--verbose"] options
     - count_of ["-q"; "--quiet"] options)%Z.
Proof.
  assert (Hgen : ∀ st0,
            process_options w options st0 = Continue st →
            net_verbosity (trace st)
            = (net_verbosity (trace st0)
               + count_of ["-v"; "--verbose"] options
               - count_of ["-q"; "--quiet"] options)%Z).
  { induction options as [|[opt val] options IH]; intros st0 Hloop.
    - injection Hloop as <-. unfold count_of. cbn. lia.
    - apply process_options_cons_continue in Hloop as (st1 & Hstep & Hrest).
      rewrite (IH _ Hrest), (handle_option_verbosity w opt val st0 st1 Hstep).
      unfold count_of. rewrite !values_of_cons.
      destruct (is_in opt ["-v"; "--verbose"]),
               (is_in opt ["-q"; "--quiet"]);
        cbn [length]; lia. }
  intros Hloop. rewrite (Hgen _ Hloop). cbn. lia.
Qed.

Lemma verbosity_counts_witness :
  ∃ st, process_options (Sample.world_of [] [] None None true)
          [("-v", ""); ("-q", ""); ("--verbose", ""); ("-n", ""); ("-v", "")]
          initial_state = Continue st
        ∧ net_verbosity (trace st) = 2%Z.
Proof.
  eexists. split; [reflexivity|].
  exact (verbosity_counts (Sample.world_of [] [] None None true)
           [("-v", ""); ("-q", ""); ("--verbose", ""); ("-n", ""); ("-v", "")]
           _ eq_refl).
Defined.

(** ** The action flags among the other options *)

Lemma handle_option_action (w : world) (opt val : string) (st : state) :
  is_in opt action_flags = true →
  handle_option w opt val st =
    Continue (with_program_opts
                (λ bag, enable_explicit_action bag (explicit_action_of opt))
                st).
Proof. intros Hopt. unfold action_flags in Hopt. by flag_cases Hopt. Qed.

(** The triad after a loop that ran to its end, by the fold over its action
    flags alone. *)
Lemma process_options_triad (w : world) (options : list (string * string))
    (st0 st : state) (k : string) :
  k ∈ ACTIONS →
  process_options w options st0 = Continue st →
  program_opts st !! k
  = foldl enable_explicit_action (program_opts st0) (actions_of options) !! k.
Proof.
  intros Hk. revert st0.
  induction options as [|[opt val] options IH]; intros st0 Hloop.
  - by injection Hloop as <-.
  - apply process_options_cons_continue in Hloop as (st1 & Hstep & Hrest).
    rewrite (IH _ Hrest). unfold actions_of. cbn [List.filter fst].
    destruct (is_in opt action_flags) eqn:Hopt.
    + rewrite (handle_option_action w opt val st0 Hopt) in Hstep.
      by injection Hstep as <-.
    + pose proof (handle_option_writers w opt val st0 k) as Hframe.
      rewrite (writers_action k Hk), Hstep in Hframe.
      specialize (Hframe Hopt). cbn [flow_state] in Hframe.
      destruct (map _ _) as [|a acts] eqn:Hacts; [done|].
      rewrite !lookup_foldl_enable_explicit_action by done.
      by rewrite Hframe.
Qed.

(** X16. In a loop that ran to its end, whatever other options stand
    between the action flags: without an action flag no key of the triad is
    in [program_opts]; with one, each key of the triad is there, true when
    its flag occurred and false when it did not. *)
Theorem triad_after_loop (w : world) (options : list (string * string))
    (st : state) (k : string) :
  process_options w options initial_state = Continue st →
  k ∈ ACTIONS →
  program_opts st !! k
  = match actions_of options with
    | [] => None
    | acts => Some (VBool (bool_decide (k ∈ acts)))
    end.
Proof.
  intros Hloop Hk.
  rewrite (process_options_triad w options initial_state st k Hk Hloop).
  destruct (actions_of options) as [|a acts]; [done|].
  rewrite lookup_foldl_enable_explicit_action by done.
  destruct (decide (k ∈ a :: acts)) as [Hin | Hnin].
  - by rewrite bool_decide_eq_true_2.
  - rewrite bool_decide_eq_false_2 by done. by rewrite decide_True.
Qed.

Lemma triad_after_loop_witness :
  ∃ st, process_options (Sample.world_of [] [] None None true)
          [("-n", ""); ("--rotate", ""); ("-x", "/proc"); ("-b", "")]
          initial_state = Continue st
        ∧ program_opts st !! "snapshot_enabled" = Some (VBool false)
        ∧ program_opts st !! "rotate_enabled" = Some (VBool true).
Proof.
  eexists. split; [reflexivity|]. split.
  - refine (triad_after_loop (Sample.world_of [] [] None None true)
              [("-n", ""); ("--rotate", ""); ("-x", "/proc"); ("-b", "")]
              _ "snapshot_enabled" eq_refl _).
    apply elem_of_ACTIONS. auto.
  - refine (triad_after_loop (Sample.world_of [] [] None None true)
              [("-n", ""); ("--rotate", ""); ("-x", "/proc"); ("-b", "")]
              _ "rotate_enabled" eq_refl _).
    apply elem_of_ACTIONS. auto.
Defined.

(** ** The keyword arguments of the engine *)

Lemma writers_nil (k : string) :
  k ∉ engine_keywords → writers k = [].
Proof.
  intros Hk. unfold engine_keywords, ACTIONS, scalar_keys in Hk.
  cbn [app] in Hk. rewrite !not_elem_of_cons in Hk.
  repeat match goal with H : _ ∧ _ |- _ => destruct H end.
  unfold writers, is_in, ACTIONS. cbn [existsb].
  repeat match goal with
         | H : ?k ≠ ?s |- context [String.eqb ?k ?s] =>
             rewrite (proj2 (String.eqb_neq k s) H)
         end.
  done.
Qed.

(** X17. The engine is built from keyword arguments of a fixed set of
    names only: the triad, the nine keys of the options, [source],
    [destination] and [source_context]. *)
Theorem engine_keywords_only (w : world) (po : gmap string value)
    (k : string) :
  Execute po ∈ (main w).1 →
  is_Some (po !! k) →
  k ∈ engine_keywords.
Proof.
  intros Hin Hk. destruct (decide (k ∈ engine_keywords)) as [|Hout]; [done|].
  exfalso.
  assert (Hnames : k ≠ "source" ∧ k ≠ "destination" ∧ k ≠ "source_context").
  { unfold engine_keywords, ACTIONS, scalar_keys in Hout.
    cbn [app] in Hout. rewrite !not_elem_of_cons in Hout. tauto. }
  destruct Hnames as (Hsrc & Hdst & Hctx).
  assert (Hloop : ∀ options st,
            process_options w options initial_state = Continue st →
            program_opts st !! k = None).
  { intros options st Hloop.
    pose proof (process_options_writers w options initial_state k) as Hframe.
    rewrite (writers_nil k Hout), Hloop in Hframe. cbn in Hframe.
    apply Hframe. by apply Forall_forall. }
  assert (Hparse : ∀ st, parse w initial_state = Continue st →
                         program_opts st !! k = None).
  { intros st. unfold parse.
    destruct (gnu_getopt w) as [e | [options arguments]]; [done|].
    destruct (process_options w options initial_state) as [st0 | st0 | e st0]
      eqn:Hl; [|done..].
    specialize (Hloop _ _ Hl). unfold resolve_arguments.
    destruct arguments as [|a0 [|a1 [|a2 rest]]]; cbn.
    - destruct (no_module_path w);
        [by destruct (usage w module_doc) | by intros [= <-]].
    - intros [= <-]. cbn. by rewrite lookup_insert_ne.
    - intros [= <-]. cbn. by rewrite !lookup_insert_ne.
    - done. }
  apply main_executed in Hin as (st & ctx & Hp & _ & ->).
  rewrite lookup_insert_ne, (Hparse st Hp) in Hk by done.
  by destruct Hk.
Qed.

Lemma engine_keywords_only_witness :
  "destination" ∈ engine_keywords.
Proof.
  refine (engine_keywords_only
            (Sample.world_of [("-b", "")] ["/mnt/backups"] None None true)
            (<["source_context" := VContext ∅]>
               (<["destination" :=
                    VObject Destination {["expression" := VStr "/mnt/backups"]}]>
                  (enable_explicit_action ∅ "backup_enabled")))
            "destination" _ _).
  - cbn. do 2 apply list_elem_of_further. apply list_elem_of_here.
  - eexists. reflexivity.
Defined.

(** ** The usage text *)

Lemma handle_option_usage (w : world) (opt val : string) (st : state) :
  Usage ∉ trace st →
  usage_last w (handle_option w opt val st).
Proof.
  intros Hst.
  assert (H1 : ∀ ev, ev ≠ Usage → Usage ∉ trace st ++ [ev]).
  { intros ev Hev. rewrite elem_of_app, list_elem_of_singleton.
    intros [? | ?]; congruence. }
  unfold usage_last.
  loop_cases; cbn [with_program_opts with_dest_opts emit trace];
    try done; try (by apply H1);
    try (split; [done | by exists (trace st)]).
  - destruct (tunnel_opts w val); cbn; [done|]. by apply H1.
  - by destruct (validate_ionice_class w _).
  - by destruct (_ !! "exclude_list") as [[]|].
Qed.

Lemma process_options_usage (w : world) (options : list (string * string))
    (st : state) :
  Usage ∉ trace st →
  usage_last w (process_options w options st).
Proof.
  revert st. induction options as [|[opt val] options IH]; intros st Hst;
    [done|].
  pose proof (handle_option_usage w opt val st Hst) as Hstep.
  cbn [process_options].
  destruct (handle_option w opt val st) as [st' | st' | e st'];
    [by apply IH | done..].
Qed.

Lemma parse_usage (w : world) : usage_last w (parse w initial_state).
Proof.
  assert (H0 : Usage ∉ trace initial_state).
  { cbn. rewrite list_elem_of_singleton. done. }
  unfold parse. destruct (gnu_getopt w) as [e | [options arguments]]; [done|].
  pose proof (process_options_usage w options initial_state H0) as Hloop.
  destruct (process_options w options initial_state) as [st | st | e st];
    [|done..].
  cbn [usage_last] in Hloop. unfold resolve_arguments.
  assert (H1 : ∀ ev, ev ≠ Usage → Usage ∉ trace st ++ [ev]).
  { intros ev Hev. rewrite elem_of_app, list_elem_of_singleton.
    intros [? | ?]; congruence. }
  destruct arguments as [|a0 [|a1 [|a2 rest]]]; cbn; try done;
    try (by apply H1).
  destruct (no_module_path w); [destruct (usage w module_doc) eqn:Hu|]; cbn;
    [done | split; [done | by exists (trace st)] | done].
Qed.

(** X18. The usage text is shown only where [usage] does not fail, which
    with the missing docstring means without a terminal; it is then the
    last thing [main] does: [main] returns, and the engine has not been
    started. *)
Theorem usage_is_last (w : world) :
  Usage ∈ (main w).1 →
  connected_to_terminal w = false
  ∧ last (main w).1 = Some Usage
  ∧ (main w).2 = Returned
  ∧ ∀ po, Execute po ∉ (main w).1.
Proof.
  pose proof (parse_usage w) as Husage. intros Hin.
  assert (Hstop : (∃ st, parse w initial_state = Return_ st) →
                  ∀ po, Execute po ∉ (main w).1).
  { intros [st Hst]. apply main_not_executed. intros st'. by rewrite Hst. }
  revert Hin Hstop. unfold main, run, triage.
  destruct (parse w initial_state) as [st | st | e st]; cbn [usage_last] in *.
  - intros Hin. exfalso. revert Hin.
    destruct (create_context w context_opts) as [e | ctx];
      [|destruct (execute w _) as [e|]];
      try (destruct (is_RsyncSystemBackupError e);
           [destruct (is_MissingBackupDiskError e
                      && negb (connected_to_terminal w))|]);
      cbn [fst]; rewrite ?elem_of_app, ?list_elem_of_singleton;
      intuition congruence.
  - destruct Husage as (Hu & tr & -> & Htr). intros _ Hstop. cbn [fst snd].
    split. { unfold usage, module_doc in Hu.
             by destruct (connected_to_terminal w). }
    split; [apply last_snoc|]. split; [done|]. apply Hstop. by eexists.
  - cbn [fst]. rewrite elem_of_app, list_elem_of_singleton.
    intros [? | ?]; [done | discriminate].
Qed.

Lemma usage_is_last_witness :
  (main (Sample.world_of [("-b", "")] [] None None false)).2 = Returned.
Proof.
  refine (proj1 (proj2 (proj2 (usage_is_last
            (Sample.world_of [("-b", "")] [] None None false) _)))).
  cbn. apply list_elem_of_further, list_elem_of_here.
Defined.

Lemma exit_1_iff_error_told_witness :
  (main (World (inl (Exn GetoptError (Text "option --bogus not recognized")))
               Sample.validate 873 None (λ kw, inr (VContext kw))
               (λ _, None) true)).2
  = SysExit 1.
Proof.
  apply exit_1_iff_error_told. cbn.
  apply Exists_cons_tl, Exists_cons_hd. exact I.
Defined.
